(** * audiomixer binding: the session transport and its three verbs

    A shallow embedding of [binding/audiomixer-binding.c]: the function
    [session_comm], which performs one connect / write / read / close
    exchange with the media session daemon over a local stream socket,
    and the verb callbacks [volume], [mute] and [zone] built on it.

    The operating system and the daemon are an explicit [World]: what
    [getenv], [socket] and [connect] answer, and the successive answers
    of [write] and [read].  Every system call the code makes is logged in
    a trace, so that statements about what was opened, sent and closed
    are statements about that list. *)

From Stdlib Require Import String Ascii DecimalString DecimalZ.
From Stdlib Require Import List ZArith Lia Bool.
Import ListNotations.
Open Scope Z_scope.

(** ** C strings and the C library *)

(** A C string is the list of its characters before the terminator. *)
Definition cstring := list ascii.

Definition lit (s : string) : cstring := list_ascii_of_string s.

Definition NUL : ascii := "000"%char.
Definition DQUOTE : ascii := "034"%char.

Definition code (c : ascii) : Z := Z.of_N (N_of_ascii c).

(** [isspace] and [isdigit] in the C locale. *)
Definition isspace (c : ascii) : bool :=
  (code c =? 32) || ((9 <=? code c) && (code c <=? 13)).

Definition isdigit (c : ascii) : bool :=
  (48 <=? code c) && (code c <=? 57).

Definition INT_MIN : Z := - 2 ^ 31.
Definition LONG_MIN : Z := - 2 ^ 63.
Definition LONG_MAX : Z := 2 ^ 63 - 1.

(** The conversion [(int) x] of a [long]: the low 32 bits, signed. *)
Definition to_int (x : Z) : Z := (x - INT_MIN) mod 2 ^ 32 + INT_MIN.

(** [strtol(s, NULL, 10)]: leading white space, an optional sign, then the
    longest run of decimal digits; a value outside [long], of 64 bits
    here, is clamped. *)
Fixpoint skip_spaces (s : cstring) : cstring :=
  match s with
  | c :: t => if isspace c then skip_spaces t else s
  | [] => []
  end.

Fixpoint digits (s : cstring) (acc : Z) : Z :=
  match s with
  | c :: t => if isdigit c then digits t (10 * acc + (code c - 48)) else acc
  | [] => acc
  end.

Definition signed_digits (s : cstring) : Z :=
  match s with
  | c :: t =>
      if (c =? "-")%char then - digits t 0
      else if (c =? "+")%char then digits t 0
      else digits s 0
  | [] => 0
  end.

Definition strtol (s : cstring) : Z :=
  Z.max LONG_MIN (Z.min LONG_MAX (signed_digits (skip_spaces s))).

(** [atoi] is [(int) strtol(s, NULL, 10)].  It reads the memory at [s] up
    to the first character that cannot continue a number, so it gives the
    same answer on a buffer as on the C string the buffer holds. *)
Definition atoi (s : cstring) : Z := to_int (strtol s).

(** The conversion [%d] of an [int]. *)
Definition fmt_d (v : Z) : cstring :=
  lit (NilZero.string_of_int (Z.to_int v)).

(** The conversion [%s]; the C library prints a null pointer as "(null)". *)
Definition fmt_s (s : option cstring) : cstring :=
  match s with
  | Some t => t
  | None => lit "(null)"
  end.

(** [snprintf(buf, size, ...)] where the format expands to [text]: the
    buffer receives at most [size - 1] characters and the terminator; the
    value returned is the length of the whole [text].  Lengths are taken
    to fit [int]. *)
Definition snprintf (size : nat) (text : cstring) : cstring * Z :=
  (firstn (size - 1) text, Z.of_nat (length text)).

(** ** The world outside the process *)

Definition EINTR : Z := 4.
Definition EAGAIN : Z := 11.

(** One answer of [write]: an error with its [errno], or the number of
    bytes the socket is ready to take. *)
Inductive write_result :=
| WriteErr (errno : Z)
| WriteOk (room : nat).

(** One answer of [read]: an error with its [errno], or the bytes the
    daemon has made available (none: the connection was closed). *)
Inductive read_result :=
| ReadErr (errno : Z)
| ReadOk (data : list ascii).

Record World := {
  xdg_runtime_dir : option cstring;   (* getenv("XDG_RUNTIME_DIR") *)
  socket_ret : Z;                     (* what socket() returns *)
  connect_ret : Z;                    (* what connect() returns *)
  write_script : list write_result;   (* successive answers of write() *)
  read_script : list read_result;     (* successive answers of read() *)
  stack : nat -> ascii                (* contents of uninitialised memory *)
}.

Inductive event :=
| EvSocket (fd : Z)
| EvConnect (fd : Z) (sun_path : cstring) (r : Z)
| EvWrite (fd : Z) (buf : cstring) (r : Z)
| EvRead (fd : Z) (count : nat) (r : Z)
| EvClose (fd : Z)
| EvPerror (tag : string)
| EvStderr (msg : cstring)
| EvStoreOutside (size index : nat).

(** [write(fd, buf, count)] with [count = strlen(buf)]: the value returned
    and [errno]. *)
Definition sys_write (res : write_result) (buf : cstring) : Z * Z :=
  match res with
  | WriteErr e => (-1, e)
  | WriteOk room => (Z.of_nat (Nat.min room (length buf)), 0)
  end.

(** The bytes a [write] that returned [r] has put on the socket. *)
Definition transmitted (buf : cstring) (r : Z) : cstring :=
  firstn (Z.to_nat r) buf.

(** [read(fd, buf, count)] with [count] the size of [buf]: the value
    returned, [errno], and the buffer afterwards. *)
Definition sys_read (res : read_result) (buf : list ascii)
  : Z * Z * list ascii :=
  match res with
  | ReadErr e => (-1, e, buf)
  | ReadOk data =>
      let got := firstn (length buf) data in
      (Z.of_nat (length got), 0, got ++ skipn (length got) buf)
  end.

(** The assignment [buf[i] = c].  Outside the array the bytes of [buf]
    are left as they are and the store is reported in the trace. *)
Definition store (buf : list ascii) (i : nat) (c : ascii) : list ascii :=
  if (i <? length buf)%nat then firstn i buf ++ c :: skipn (S i) buf
  else buf.

Definition store_events (buf : list ascii) (i : nat) : list event :=
  if (i <? length buf)%nat then [] else [EvStoreOutside (length buf) i].

(** ** session_comm *)

Definition NAME : cstring := lit "pipewire-media-session".

(** [sizeof(addr.sun_path)] *)
Definition sizeof_sun_path : nat := 108.

Definition msg_no_runtime_dir : cstring :=
  lit "connect failed: XDG_RUNTIME_DIR not set in the environment".

Definition msg_too_long (runtime_dir : cstring) : cstring :=
  lit "socket path " ++ [DQUOTE] ++ runtime_dir ++ lit "/" ++ NAME
    ++ [DQUOTE] ++ lit " plus null terminator exceeds 108 bytes".

Definition msg_nothing_written : cstring := lit "Nothing was written".
Definition msg_eof : cstring := lit "EOF".

Definition transient (errno : Z) : bool :=
  (errno =? EAGAIN) || (errno =? EINTR).

(** The first [while (true)] loop.  Each turn consumes one answer of
    [write]; the value is [r] after the loop and the calls made.  [None]
    when every answer of the script was a transient error: the loop is
    still turning. *)
Fixpoint write_loop (fd : Z) (command : cstring) (script : list write_result)
  : option (Z * list event) :=
  match script with
  | [] => None
  | res :: rest =>
      let '(r, errno) := sys_write res command in
      if r <? 0 then
        if transient errno then
          match write_loop fd command rest with
          | Some (r', evs) => Some (r', EvWrite fd command r :: evs)
          | None => None
          end
        else Some (0, [EvWrite fd command r; EvPerror "write"])
      else Some (r, [EvWrite fd command r])
  end.

(** The second [while (true)] loop, on [read]. *)
Fixpoint read_loop (fd : Z) (reply : list ascii) (script : list read_result)
  : option (Z * list ascii * list event) :=
  match script with
  | [] => None
  | res :: rest =>
      let '(r, errno, reply') := sys_read res reply in
      if r <? 0 then
        if transient errno then
          match read_loop fd reply' rest with
          | Some (r', buf, evs) =>
              Some (r', buf, EvRead fd (length reply) r :: evs)
          | None => None
          end
        else Some (0, reply', [EvRead fd (length reply) r; EvPerror "read"])
      else Some (r, reply', [EvRead fd (length reply) r])
  end.

Record outcome := Outcome {
  ret : Z;                 (* the value returned *)
  reply_mem : list ascii;  (* the caller's reply buffer afterwards *)
  trace : list event       (* the calls made, in order *)
}.

(** [int session_comm(const char *command, char *reply, size_t reply_size)].
    The buffer and its size are one argument: [reply_size] is the length
    of [reply], as at the three call sites, which pass [sizeof(reply)]. *)
Definition session_comm (w : World) (command : cstring) (reply : list ascii)
  : option outcome :=
  match xdg_runtime_dir w with
  | None => Some (Outcome (-1) reply [EvStderr msg_no_runtime_dir])
  | Some runtime_dir =>
    let fd := socket_ret w in
    if fd <? 0 then Some (Outcome (-1) reply [EvSocket fd; EvPerror "socket"])
    else
      let '(sun_path, n) :=
        snprintf sizeof_sun_path (runtime_dir ++ lit "/" ++ NAME) in
      let name_size := n + 1 in
      if name_size >? Z.of_nat sizeof_sun_path then
        Some (Outcome (-1) reply
                [EvSocket fd; EvStderr (msg_too_long runtime_dir); EvClose fd])
      else
        let c := connect_ret w in
        if c <? 0 then
          Some (Outcome (-1) reply
                  [EvSocket fd; EvConnect fd sun_path c; EvPerror "connect";
                   EvClose fd])
        else
          match write_loop fd command (write_script w) with
          | None => None
          | Some (r, wevs) =>
            let opened := EvSocket fd :: EvConnect fd sun_path c :: wevs in
            if r =? 0 then
              Some (Outcome (-1) reply
                      (opened ++ [EvStderr msg_nothing_written; EvClose fd]))
            else
              match read_loop fd reply (read_script w) with
              | None => None
              | Some (r, reply', revs) =>
                if r =? 0 then
                  Some (Outcome (-1) reply'
                          (opened ++ revs ++ [EvStderr msg_eof; EvClose fd]))
                else
                  let i := Z.to_nat r in
                  Some (Outcome 0 (store reply' i NUL)
                          (opened ++ revs ++ store_events reply' i
                             ++ [EvClose fd]))
              end
          end
  end.

(** ** The verb callbacks *)

(** What [afb_req_value(request, "role")] and [afb_req_value(request,
    "value")] give: [None] is the null pointer of an absent argument. *)
Record afb_req := {
  req_role : option cstring;
  req_value : option cstring
}.

(** The answer handed to the binder: [afb_req_fail(request, status, info)]
    or [afb_req_success] with a JSON object of integer members. *)
Inductive afb_reply :=
| afb_req_fail (status info : string)
| afb_req_success (obj : list (string * Z)).

(** [sizeof(command)] and [sizeof(reply)] in the callbacks *)
Definition sizeof_command : nat := 100.
Definition sizeof_reply : nat := 10.

(** [char reply[10]], not initialised. *)
Definition reply_array (w : World) : list ascii :=
  map (stack w) (seq 0 sizeof_reply).

(** [static void volume(struct afb_req request)].  The result is the
    answer given to the binder and the system calls made.  After the
    exchange [atoi] scans the reply array; when the reply has filled it,
    the scan ends with the array, where the terminator stored outside
    lies. *)
Definition volume (w : World) (request : afb_req)
  : option (afb_reply * list event) :=
  let role := req_role request in
  let value := req_value request in
  let volume := match value with Some s => atoi s | None => -1 end in
  if match value with
     | Some _ => (volume <? 0) || (volume >? 100)
     | None => false
     end
  then
    Some (afb_req_fail "failed"
            "Invalid volume value (must be between 0 and 100)", [])
  else
    let '(command, _) :=
      snprintf sizeof_command
        (lit "volume " ++ fmt_s role ++ lit " " ++ fmt_d volume) in
    match session_comm w command (reply_array w) with
    | None => None
    | Some o =>
      if ret o <? 0 then
        Some (afb_req_fail "failed" "media-session communication failed",
              trace o)
      else
        let volume := atoi (reply_mem o) in
        if volume <? 0 then
          Some (afb_req_fail "failed" "media-session replied -1", trace o)
        else Some (afb_req_success [("volume"%string, volume)], trace o)
    end.

(** [static void mute(struct afb_req request)] *)
Definition mute (w : World) (request : afb_req)
  : option (afb_reply * list event) :=
  let role := req_role request in
  let value := req_value request in
  let mute := match value with Some s => atoi s | None => -1 end in
  if match value with
     | Some _ => (mute <? 0) || (mute >? 1)
     | None => false
     end
  then
    Some (afb_req_fail "failed"
            "Invalid mute value (must be between 0 and 1)", [])
  else
    let '(command, _) :=
      snprintf sizeof_command
        (lit "mute " ++ fmt_s role ++ lit " " ++ fmt_d mute) in
    match session_comm w command (reply_array w) with
    | None => None
    | Some o =>
      if ret o <? 0 then
        Some (afb_req_fail "failed" "media-session communication failed",
              trace o)
      else
        let mute := atoi (reply_mem o) in
        if mute <? 0 then
          Some (afb_req_fail "failed" "media-session replied -1", trace o)
        else Some (afb_req_success [("mute"%string, mute)], trace o)
    end.

(** [static void zone(struct afb_req request)] *)
Definition zone (w : World) (request : afb_req)
  : option (afb_reply * list event) :=
  let role := req_role request in
  let value := req_value request in
  let zone := match value with Some s => atoi s | None => -1 end in
  if match value with
     | Some _ => (zone <? 0) || (zone >? 4)
     | None => false
     end
  then
    Some (afb_req_fail "failed"
            "Invalid mute value (must be between 0 and 4)", [])
  else
    let '(command, _) :=
      snprintf sizeof_command
        (lit "zone " ++ fmt_s role ++ lit " " ++ fmt_d zone) in
    match session_comm w command (reply_array w) with
    | None => None
    | Some o =>
      if ret o <? 0 then
        Some (afb_req_fail "failed" "media-session communication failed",
              trace o)
      else
        let zone := atoi (reply_mem o) in
        if zone <? 0 then
          Some (afb_req_fail "failed" "media-session replied -1", trace o)
        else Some (afb_req_success [("zone"%string, zone)], trace o)
    end.

(** The table [verbs]: the names under which the binder finds the three
    callbacks. *)
Inductive verb := Volume | Mute | Zone.

Definition verb_name (v : verb) : string :=
  match v with
  | Volume => "volume"
  | Mute => "mute"
  | Zone => "zone"
  end.

Definition handler (v : verb)
  : World -> afb_req -> option (afb_reply * list event) :=
  match v with
  | Volume => volume
  | Mute => mute
  | Zone => zone
  end.

(** ** The body the three callbacks share *)

(** The upper end of the accepted range; the lower end is 0 for all. *)
Definition verb_max (v : verb) : Z :=
  match v with
  | Volume => 100
  | Mute => 1
  | Zone => 4
  end.

Definition msg_invalid (v : verb) : string :=
  match v with
  | Volume => "Invalid volume value (must be between 0 and 100)"
  | Mute => "Invalid mute value (must be between 0 and 1)"
  | Zone => "Invalid mute value (must be between 0 and 4)"
  end.

Definition msg_comm_failed : string := "media-session communication failed".
Definition msg_replied : string := "media-session replied -1".

(** [snprintf(command, sizeof(command), "<verb> %s %d", role, x)] *)
Definition format_command (v : verb) (role : option cstring) (x : Z)
  : cstring :=
  fst (snprintf sizeof_command
         (lit (verb_name v) ++ lit " " ++ fmt_s role ++ lit " " ++ fmt_d x)).

(** The part of a callback after the command is formatted: the exchange
    and the reading of the reply. *)
Definition exchange (v : verb) (w : World) (command : cstring)
  : option (afb_reply * list event) :=
  match session_comm w command (reply_array w) with
  | None => None
  | Some o =>
      if ret o <? 0 then Some (afb_req_fail "failed" msg_comm_failed, trace o)
      else
        let x := atoi (reply_mem o) in
        if x <? 0 then Some (afb_req_fail "failed" msg_replied, trace o)
        else Some (afb_req_success [(verb_name v, x)], trace o)
  end.

(** The three callbacks differ in the verb's name, the upper bound and
    the message only; [callback v] is their body with these as
    parameters, and [handler_callback] below shows it equal to each. *)
Definition callback (v : verb) (w : World) (request : afb_req)
  : option (afb_reply * list event) :=
  let role := req_role request in
  let value := req_value request in
  let x := match value with Some s => atoi s | None => -1 end in
  let invalid :=
    match value with
    | Some _ => (x <? 0) || (x >? verb_max v)
    | None => false
    end in
  if invalid then Some (afb_req_fail "failed" (msg_invalid v), [])
  else exchange v w (format_command v role x).

(** ** The vocabulary of the statements *)

Definition retried_writes (fd : Z) (command : cstring) (es : list Z)
  : list event :=
  map (fun _ => EvWrite fd command (-1)) es.

Definition retried_reads (fd : Z) (count : nat) (es : list Z) : list event :=
  map (fun _ => EvRead fd count (-1)) es.

Definition all_transient (es : list Z) : Prop :=
  Forall (fun e => transient e = true) es.

(** Every error of the list is EAGAIN or EINTR. *)
Definition interrupted (es : list Z) : Prop :=
  Forall (fun e => e = EAGAIN \/ e = EINTR) es.

(** The file descriptors closed in a trace, in order. *)
Definition closed (tr : list event) : list Z :=
  flat_map (fun e => match e with EvClose fd => [fd] | _ => [] end) tr.

(** The [connect] calls of a trace. *)
Definition connects_in (tr : list event) : list event :=
  filter (fun e => match e with EvConnect _ _ _ => true | _ => false end) tr.

(** The bytes put on the socket by the [write] calls of a trace. *)
Definition sent (tr : list event) : cstring :=
  flat_map (fun e => match e with
                     | EvWrite _ buf r => transmitted buf r
                     | _ => []
                     end) tr.

(** The buffers handed to the [write] calls of a trace. *)
Definition offered (tr : list event) : list cstring :=
  flat_map (fun e => match e with EvWrite _ buf _ => [buf] | _ => [] end) tr.

(** A script with an answer that is not a transient error ends the loop. *)
Definition settles_write (script : list write_result) : Prop :=
  Exists (fun res => match res with
                     | WriteErr e => transient e = false
                     | WriteOk _ => True
                     end) script.

Definition settles_read (script : list read_result) : Prop :=
  Exists (fun res => match res with
                     | ReadErr e => transient e = false
                     | ReadOk _ => True
                     end) script.

Definition sock_path (runtime_dir : cstring) : cstring :=
  runtime_dir ++ lit "/" ++ NAME.

(** The path with its terminator fits [sun_path]. *)
Definition path_fits (runtime_dir : cstring) : Prop :=
  (length (sock_path runtime_dir) + 1 <= sizeof_sun_path)%nat.

(** The world lets the call get as far as a connected socket. *)
Definition connects (w : World) (runtime_dir : cstring) : Prop :=
  xdg_runtime_dir w = Some runtime_dir /\
  0 <= socket_ret w /\
  path_fits runtime_dir /\
  0 <= connect_ret w.

Definition opened (w : World) (runtime_dir : cstring) : list event :=
  [EvSocket (socket_ret w);
   EvConnect (socket_ret w) (sock_path runtime_dir) (connect_ret w)].

(** What one [read] into [reply] takes of [data]. *)
Definition received (reply data : list ascii) : list ascii :=
  firstn (length reply) data.

(** The exchange has got past the write: the loop left a positive [r]. *)
Definition wrote (w : World) (command : cstring) (r : Z)
    (wevs : list event) : Prop :=
  write_loop (socket_ret w) command (write_script w) = Some (r, wevs) /\
  r <> 0.

(** The read loop meets, after transient errors, the bytes [data]. *)
Definition reads (w : World) (es : list Z) (data : list ascii)
    (rest : list read_result) : Prop :=
  read_script w = map ReadErr es ++ ReadOk data :: rest /\ all_transient es.

(** The text a callback formats for the value [x], before [snprintf]
    bounds it to the command buffer. *)
Definition command_text (v : verb) (role : option cstring) (x : Z)
  : cstring :=
  lit (verb_name v) ++ lit " " ++ fmt_s role ++ lit " " ++ fmt_d x.

(** What the binder is told once the reply parses to [x]. *)
Definition answer (v : verb) (x : Z) : afb_reply :=
  if x <? 0 then afb_req_fail "failed" msg_replied
  else afb_req_success [(verb_name v, x)].

Definition rejected (v : verb) : option (afb_reply * list event) :=
  Some (afb_req_fail "failed" (msg_invalid v), []).

(** The command of a request that passes the range check. *)
Definition accepted (v : verb) (request : afb_req) (command : cstring)
  : Prop :=
  match req_value request with
  | None => command = format_command v (req_role request) (-1)
  | Some s =>
      0 <= atoi s <= verb_max v /\
      command = format_command v (req_role request) (atoi s)
  end.

(** The ways an exchange of [command] can fail in the world [w]. *)
Inductive transport_failure (w : World) (command : cstring) : Prop :=
| NoRuntimeDir :
    xdg_runtime_dir w = None ->
    transport_failure w command
| SocketFailed (runtime_dir : cstring) :
    xdg_runtime_dir w = Some runtime_dir ->
    socket_ret w < 0 ->
    transport_failure w command
| AddressTooLong (runtime_dir : cstring) :
    xdg_runtime_dir w = Some runtime_dir ->
    0 <= socket_ret w ->
    ~ path_fits runtime_dir ->
    transport_failure w command
| ConnectFailed (runtime_dir : cstring) :
    xdg_runtime_dir w = Some runtime_dir ->
    0 <= socket_ret w ->
    path_fits runtime_dir ->
    connect_ret w < 0 ->
    transport_failure w command
| WriteFailed (runtime_dir : cstring) (es : list Z) (e : Z)
    (rest : list write_result) :
    connects w runtime_dir ->
    write_script w = map WriteErr es ++ WriteErr e :: rest ->
    all_transient es ->
    transient e = false ->
    transport_failure w command
| NothingWritten (runtime_dir : cstring) (es : list Z) (room : nat)
    (rest : list write_result) :
    connects w runtime_dir ->
    write_script w = map WriteErr es ++ WriteOk room :: rest ->
    all_transient es ->
    Nat.min room (length command) = 0%nat ->
    transport_failure w command
| ReadFailed (runtime_dir : cstring) (r : Z) (wevs : list event)
    (es : list Z) (e : Z) (rest : list read_result) :
    connects w runtime_dir ->
    wrote w command r wevs ->
    read_script w = map ReadErr es ++ ReadErr e :: rest ->
    all_transient es ->
    transient e = false ->
    transport_failure w command
| EndOfFile (runtime_dir : cstring) (r : Z) (wevs : list event)
    (es : list Z) (rest : list read_result) :
    connects w runtime_dir ->
    wrote w command r wevs ->
    reads w es [] rest ->
    transport_failure w command.

(** ** Sample worlds and requests *)

(** A world in which everything works and the daemon answers [answer]. *)
Definition cooperative_in (runtime_dir : cstring) (answer : list ascii)
  : World :=
  {| xdg_runtime_dir := Some runtime_dir;
     socket_ret := 3;
     connect_ret := 0;
     write_script := [WriteOk 4096];
     read_script := [ReadOk answer];
     stack := fun _ => "?"%char |}.

Definition cooperative (runtime_dir : string) (answer : string) : World :=
  cooperative_in (lit runtime_dir) (lit answer).

(** A world without XDG_RUNTIME_DIR in the environment. *)
Definition unset_runtime_dir : World :=
  {| xdg_runtime_dir := None;
     socket_ret := 3;
     connect_ret := 0;
     write_script := [WriteOk 4096];
     read_script := [ReadOk (lit "42")];
     stack := fun _ => "?"%char |}.

(** Runtime directories of 84 and 85 characters: with the 23 of
    "/pipewire-media-session" the path has 107 and 108 characters. *)
Definition dir84 : cstring := lit "/" ++ repeat "d"%char 83.
Definition dir85 : cstring := lit "/" ++ repeat "d"%char 84.

(** A world in which the socket takes only [room] bytes at the first
    write, and the daemon then answers [answer]. *)
Definition narrow_socket (room : nat) (answer : string) : World :=
  {| xdg_runtime_dir := Some (lit "/run/user/1000");
     socket_ret := 3;
     connect_ret := 0;
     write_script := [WriteOk room];
     read_script := [ReadOk (lit answer)];
     stack := fun _ => "?"%char |}.

(** A role of 100 characters, longer than the command buffer. *)
Definition long_role : cstring := repeat "a"%char 100.

(** ** The binding's table and entry point *)

(** [struct afb_verb_v2]; every entry has [.session = AFB_SESSION_NONE]. *)
Record afb_verb_v2 := {
  verb_of : string;
  callback_of : World -> afb_req -> option (afb_reply * list event);
  info_of : string
}.

(** [static const struct afb_verb_v2 verbs[]], without the empty entry
    that ends the array. *)
Definition verbs : list afb_verb_v2 :=
  [ {| verb_of := "volume"; callback_of := volume;
       info_of := "Get/Set volume" |};
    {| verb_of := "mute"; callback_of := mute; info_of := "Get/Set mute" |};
    {| verb_of := "zone"; callback_of := zone; info_of := "Get/Set zone" |} ].

(** [static int init()] *)
Definition init : Z := 0.

(** ** Further vocabulary *)

(** The counts returned by the [read] calls of a trace. *)
Definition read_counts (tr : list event) : list Z :=
  flat_map (fun e => match e with EvRead _ _ r => [r] | _ => [] end) tr.

(** The [socket] calls of a trace. *)
Definition sockets_in (tr : list event) : list event :=
  filter (fun e => match e with EvSocket _ => true | _ => false end) tr.

(** What was printed on [stderr] by [fprintf], message by message. *)
Definition printed (tr : list event) : list cstring :=
  flat_map (fun e => match e with EvStderr m => [m] | _ => [] end) tr.

(** What went to [stderr], through [perror] or [fprintf]. *)
Definition diagnostics (tr : list event) : list event :=
  filter (fun e => match e with
                   | EvPerror _ => true
                   | EvStderr _ => true
                   | _ => false
                   end) tr.

(** The event is a call on the descriptor [fd] of an exchange of
    [command] with a reply buffer of [count] bytes: a [write] is given the
    command and returns at most its length, a [read] asks for [count]
    bytes and returns at most that. *)
Definition call_on (fd : Z) (command : cstring) (count : nat) (e : event)
  : Prop :=
  match e with
  | EvSocket f => f = fd
  | EvConnect f _ _ => f = fd
  | EvWrite f buf r =>
      f = fd /\ buf = command /\ -1 <= r <= Z.of_nat (length command)
  | EvRead f n r => f = fd /\ n = count /\ -1 <= r <= Z.of_nat count
  | EvClose f => f = fd
  | EvPerror _ => True
  | EvStderr _ => True
  | EvStoreOutside _ _ => True
  end.

(** A script that holds nothing but transient errors. *)
Definition only_transient_writes (script : list write_result) : Prop :=
  Forall (fun res => match res with
                     | WriteErr e => transient e = true
                     | WriteOk _ => False
                     end) script.

Definition only_transient_reads (script : list read_result) : Prop :=
  Forall (fun res => match res with
                     | ReadErr e => transient e = true
                     | ReadOk _ => False
                     end) script.

(** The world [w] with other contents in its uninitialised memory. *)
Definition with_stack (w : World) (s : nat -> ascii) : World :=
  {| xdg_runtime_dir := xdg_runtime_dir w;
     socket_ret := socket_ret w;
     connect_ret := connect_ret w;
     write_script := write_script w;
     read_script := read_script w;
     stack := s |}.

(** The seven ways [session_comm] returns, each with its outcome. *)
Inductive exit_path (w : World) (command : cstring) (reply : list ascii)
  : outcome -> Prop :=
| ExitNoRuntimeDir :
    xdg_runtime_dir w = None ->
    exit_path w command reply
      (Outcome (-1) reply [EvStderr msg_no_runtime_dir])
| ExitSocket (runtime_dir : cstring) :
    xdg_runtime_dir w = Some runtime_dir ->
    socket_ret w < 0 ->
    exit_path w command reply
      (Outcome (-1) reply [EvSocket (socket_ret w); EvPerror "socket"])
| ExitTooLong (runtime_dir : cstring) :
    xdg_runtime_dir w = Some runtime_dir ->
    0 <= socket_ret w ->
    ~ path_fits runtime_dir ->
    exit_path w command reply
      (Outcome (-1) reply
         [EvSocket (socket_ret w); EvStderr (msg_too_long runtime_dir);
          EvClose (socket_ret w)])
| ExitConnect (runtime_dir : cstring) :
    xdg_runtime_dir w = Some runtime_dir ->
    0 <= socket_ret w ->
    path_fits runtime_dir ->
    connect_ret w < 0 ->
    exit_path w command reply
      (Outcome (-1) reply
         [EvSocket (socket_ret w);
          EvConnect (socket_ret w) (sock_path runtime_dir) (connect_ret w);
          EvPerror "connect"; EvClose (socket_ret w)])
| ExitWrite (runtime_dir : cstring) (wevs : list event) :
    connects w runtime_dir ->
    write_loop (socket_ret w) command (write_script w) = Some (0, wevs) ->
    exit_path w command reply
      (Outcome (-1) reply
         (opened w runtime_dir ++ wevs
            ++ [EvStderr msg_nothing_written; EvClose (socket_ret w)]))
| ExitRead (runtime_dir : cstring) (r : Z) (wevs : list event)
    (reply' : list ascii) (revs : list event) :
    connects w runtime_dir ->
    wrote w command r wevs ->
    read_loop (socket_ret w) reply (read_script w) = Some (0, reply', revs) ->
    exit_path w command reply
      (Outcome (-1) reply'
         (opened w runtime_dir ++ wevs ++ revs
            ++ [EvStderr msg_eof; EvClose (socket_ret w)]))
| ExitSuccess (runtime_dir : cstring) (r : Z) (wevs : list event) (r' : Z)
    (reply' : list ascii) (revs : list event) :
    connects w runtime_dir ->
    wrote w command r wevs ->
    read_loop (socket_ret w) reply (read_script w) = Some (r', reply', revs) ->
    r' <> 0 ->
    exit_path w command reply
      (Outcome 0 (store reply' (Z.to_nat r') NUL)
         (opened w runtime_dir ++ wevs ++ revs
            ++ store_events reply' (Z.to_nat r')
            ++ [EvClose (socket_ret w)])).

(** ** The loops *)

Lemma closed_app (a b : list event) : closed (a ++ b) = closed a ++ closed b.
Proof. apply flat_map_app. Qed.

Lemma diagnostics_app (a b : list event) :
  diagnostics (a ++ b) = diagnostics a ++ diagnostics b.
Proof. apply filter_app. Qed.

Lemma sent_app (a b : list event) : sent (a ++ b) = sent a ++ sent b.
Proof. apply flat_map_app. Qed.

Lemma offered_app (a b : list event) :
  offered (a ++ b) = offered a ++ offered b.
Proof. apply flat_map_app. Qed.

Lemma connects_in_app (a b : list event) :
  connects_in (a ++ b) = connects_in a ++ connects_in b.
Proof. apply filter_app. Qed.

Lemma length_received (reply data : list ascii) :
  length (received reply data) = Nat.min (length reply) (length data).
Proof. apply length_firstn. Qed.

Section Loops.

Variable fd : Z.

Lemma write_loop_retry (command : cstring) (es : list Z)
    (script : list write_result) :
  all_transient es ->
  write_loop fd command (map WriteErr es ++ script) =
    match write_loop fd command script with
    | Some (r, evs) => Some (r, retried_writes fd command es ++ evs)
    | None => None
    end.
Proof.
  induction 1 as [|e es He _ IH]; simpl.
  - destruct (write_loop fd command script) as [[r evs]|]; reflexivity.
  - rewrite He, IH.
    destruct (write_loop fd command script) as [[r evs]|]; reflexivity.
Qed.

Lemma read_loop_retry (reply : list ascii) (es : list Z)
    (script : list read_result) :
  all_transient es ->
  read_loop fd reply (map ReadErr es ++ script) =
    match read_loop fd reply script with
    | Some (r, buf, evs) =>
        Some (r, buf, retried_reads fd (length reply) es ++ evs)
    | None => None
    end.
Proof.
  induction 1 as [|e es He _ IH]; simpl.
  - destruct (read_loop fd reply script) as [[[r buf] evs]|]; reflexivity.
  - rewrite He, IH.
    destruct (read_loop fd reply script) as [[[r buf] evs]|]; reflexivity.
Qed.

(** After the write loop [r] is the count of the last call, between 0 and
    [strlen(command)], and the calls made are [write]s and at most a final
    [perror]: nothing is closed, and bytes go out only when [r] is
    positive, the first [r] of the command. *)
Lemma write_loop_spec (command : cstring)
    (script : list write_result) (r : Z) (evs : list event) :
  write_loop fd command script = Some (r, evs) ->
  0 <= r <= Z.of_nat (length command) /\
  closed evs = [] /\
  sent evs = transmitted command r.
Proof.
  revert r evs.
  induction script as [|res rest IH]; intros r evs; simpl; [discriminate|].
  destruct res as [e|room]; simpl.
  - destruct (transient e).
    + destruct (write_loop fd command rest) as [[r' evs']|]; [|discriminate].
      intros [= <- <-]. destruct (IH _ _ eq_refl) as (Hr & Hc & Hs).
      repeat split; try apply Hr; assumption.
    + intros [= <- <-]. repeat split; try reflexivity; lia.
  - destruct (Z.ltb_spec (Z.of_nat (Nat.min room (length command))) 0);
      [lia|].
    intros [= <- <-]. repeat split; try lia.
    simpl. apply app_nil_r.
Qed.

(** After the read loop [r] is the count of the last call, between 0 and
    the size of the buffer, which keeps its size and holds in front the
    [r] bytes received. *)
Lemma read_loop_spec (reply : list ascii)
    (script : list read_result) (r : Z) (buf : list ascii)
    (evs : list event) :
  read_loop fd reply script = Some (r, buf, evs) ->
  0 <= r <= Z.of_nat (length reply) /\
  length buf = length reply /\
  closed evs = [] /\
  sent evs = [].
Proof.
  revert r buf evs.
  induction script as [|res rest IH]; intros r buf evs; simpl;
    [discriminate|].
  destruct res as [e|data]; simpl.
  - destruct (transient e).
    + destruct (read_loop fd reply rest) as [[[r' buf'] evs']|];
        [|discriminate].
      intros [= <- <- <-].
      destruct (IH _ _ _ eq_refl) as (Hr & Hl & Hc & Hs).
      repeat split; try apply Hr; assumption.
    + intros [= <- <- <-]. repeat split; try reflexivity; lia.
  - destruct (Z.ltb_spec
                (Z.of_nat (length (firstn (length reply) data))) 0); [lia|].
    intros [= <- <- <-].
    pose proof (firstn_le_length (length reply) data) as Hle.
    repeat split; try lia.
    rewrite length_app, length_skipn. lia.
Qed.

Lemma write_loop_returns (command : cstring)
    (script : list write_result) :
  settles_write script ->
  exists r evs, write_loop fd command script = Some (r, evs).
Proof.
  induction script as [|res rest IH]; intros H; [inversion H|].
  simpl. destruct res as [e|room]; simpl.
  - destruct (transient e) eqn:He.
    + inversion H as [? ? H1|? ? H1]; subst; [congruence|].
      destruct (IH H1) as (r & evs & ->). eauto.
    + eauto.
  - destruct (_ <? 0); eauto.
Qed.

Lemma read_loop_returns (reply : list ascii)
    (script : list read_result) :
  settles_read script ->
  exists r buf evs, read_loop fd reply script = Some (r, buf, evs).
Proof.
  induction script as [|res rest IH]; intros H; [inversion H|].
  simpl. destruct res as [e|data]; simpl.
  - destruct (transient e) eqn:He.
    + inversion H as [? ? H1|? ? H1]; subst; [congruence|].
      destruct (IH H1) as (r & buf & evs & ->). eauto.
    + eauto.
  - destruct (_ <? 0); eauto.
Qed.

Lemma write_loop_count (command : cstring) (es : list Z)
    (room : nat) (rest : list write_result) :
  all_transient es ->
  write_loop fd command (map WriteErr es ++ WriteOk room :: rest) =
    let r := Z.of_nat (Nat.min room (length command)) in
    Some (r, retried_writes fd command es ++ [EvWrite fd command r]).
Proof.
  intros H. rewrite (write_loop_retry _ _ _ H). simpl.
  destruct (Z.ltb_spec (Z.of_nat (Nat.min room (length command))) 0);
    [lia | reflexivity].
Qed.

Lemma write_loop_error (command : cstring) (es : list Z) (e : Z)
    (rest : list write_result) :
  all_transient es ->
  transient e = false ->
  write_loop fd command (map WriteErr es ++ WriteErr e :: rest) =
    Some (0, retried_writes fd command es
               ++ [EvWrite fd command (-1); EvPerror "write"]).
Proof.
  intros H He. rewrite (write_loop_retry _ _ _ H). simpl. rewrite He.
  reflexivity.
Qed.

Lemma read_loop_data (reply : list ascii) (es : list Z)
    (data : list ascii) (rest : list read_result) :
  all_transient es ->
  read_loop fd reply (map ReadErr es ++ ReadOk data :: rest) =
    let got := received reply data in
    Some (Z.of_nat (length got), got ++ skipn (length got) reply,
          retried_reads fd (length reply) es
            ++ [EvRead fd (length reply) (Z.of_nat (length got))]).
Proof.
  intros H. rewrite (read_loop_retry _ _ _ H). simpl. unfold received.
  destruct (Z.ltb_spec (Z.of_nat (length (firstn (length reply) data))) 0);
    [lia | reflexivity].
Qed.

Lemma read_loop_error (reply : list ascii) (es : list Z) (e : Z)
    (rest : list read_result) :
  all_transient es ->
  transient e = false ->
  read_loop fd reply (map ReadErr es ++ ReadErr e :: rest) =
    Some (0, reply,
          retried_reads fd (length reply) es
            ++ [EvRead fd (length reply) (-1); EvPerror "read"]).
Proof.
  intros H He. rewrite (read_loop_retry _ _ _ H). simpl. rewrite He.
  reflexivity.
Qed.

Lemma write_loop_offered (command : cstring)
    (script : list write_result) (r : Z) (evs : list event) :
  write_loop fd command script = Some (r, evs) ->
  Forall (eq command) (offered evs).
Proof.
  revert r evs.
  induction script as [|res rest IH]; intros r evs; simpl; [discriminate|].
  destruct res as [e|room]; simpl.
  - destruct (transient e).
    + destruct (write_loop fd command rest) as [[r' evs']|]; [|discriminate].
      intros [= <- <-]. constructor; [reflexivity | now apply (IH r')].
    + intros [= <- <-]. repeat constructor.
  - destruct (_ <? 0); intros [= <- <-]; repeat constructor.
Qed.

Lemma read_loop_offered (reply : list ascii)
    (script : list read_result) (r : Z) (buf : list ascii)
    (evs : list event) :
  read_loop fd reply script = Some (r, buf, evs) ->
  offered evs = [].
Proof.
  revert r buf evs.
  induction script as [|res rest IH]; intros r buf evs; simpl;
    [discriminate|].
  destruct res as [e|data]; simpl.
  - destruct (transient e).
    + destruct (read_loop fd reply rest) as [[[r' buf'] evs']|];
        [|discriminate].
      intros [= <- <- <-]. exact (IH r' buf' evs' eq_refl).
    + intros [= <- <- <-]. reflexivity.
  - destruct (_ <? 0); intros [= <- <- <-]; reflexivity.
Qed.

End Loops.

(** ** The exit paths of session_comm *)

Lemma some_eq {A : Type} (x y : A) : Some x = Some y -> y = x.
Proof. congruence. Qed.

Lemma snprintf_fits (size : nat) (text : cstring) :
  (length text + 1 <= size)%nat ->
  snprintf size text = (text, Z.of_nat (length text)).
Proof.
  intros H. unfold snprintf. rewrite firstn_all2 by lia. reflexivity.
Qed.

Lemma closed_store_events (buf : list ascii) (i : nat) :
  closed (store_events buf i) = [].
Proof. unfold store_events. destruct (i <? length buf)%nat; reflexivity. Qed.

Lemma sent_store_events (buf : list ascii) (i : nat) :
  sent (store_events buf i) = [].
Proof. unfold store_events. destruct (i <? length buf)%nat; reflexivity. Qed.

Lemma offered_store_events (buf : list ascii) (i : nat) :
  offered (store_events buf i) = [].
Proof. unfold store_events. destruct (i <? length buf)%nat; reflexivity. Qed.

Lemma path_no_runtime_dir (w : World) (command : cstring)
    (reply : list ascii) :
  xdg_runtime_dir w = None ->
  session_comm w command reply =
    Some (Outcome (-1) reply [EvStderr msg_no_runtime_dir]).
Proof. unfold session_comm. intros ->. reflexivity. Qed.

Lemma path_socket_failed (w : World) (runtime_dir command : cstring)
    (reply : list ascii) :
  xdg_runtime_dir w = Some runtime_dir ->
  socket_ret w < 0 ->
  session_comm w command reply =
    Some (Outcome (-1) reply [EvSocket (socket_ret w); EvPerror "socket"]).
Proof.
  unfold session_comm. intros -> H.
  destruct (Z.ltb_spec (socket_ret w) 0); [reflexivity | lia].
Qed.

Lemma path_too_long (w : World) (runtime_dir command : cstring)
    (reply : list ascii) :
  xdg_runtime_dir w = Some runtime_dir ->
  0 <= socket_ret w ->
  ~ path_fits runtime_dir ->
  session_comm w command reply =
    Some (Outcome (-1) reply
            [EvSocket (socket_ret w); EvStderr (msg_too_long runtime_dir);
             EvClose (socket_ret w)]).
Proof.
  unfold session_comm, path_fits, sock_path. intros -> Hs Hp.
  destruct (Z.ltb_spec (socket_ret w) 0); [lia|].
  cbn [snprintf].
  destruct (Z.gtb_spec (Z.of_nat (length (runtime_dir ++ lit "/" ++ NAME)) + 1)
              (Z.of_nat sizeof_sun_path)); [reflexivity | lia].
Qed.

Lemma path_connect_failed (w : World) (runtime_dir command : cstring)
    (reply : list ascii) :
  xdg_runtime_dir w = Some runtime_dir ->
  0 <= socket_ret w ->
  path_fits runtime_dir ->
  connect_ret w < 0 ->
  session_comm w command reply =
    Some (Outcome (-1) reply
            [EvSocket (socket_ret w);
             EvConnect (socket_ret w) (sock_path runtime_dir) (connect_ret w);
             EvPerror "connect"; EvClose (socket_ret w)]).
Proof.
  unfold session_comm, path_fits. intros -> Hs Hp Hc.
  destruct (Z.ltb_spec (socket_ret w) 0); [lia|].
  fold (sock_path runtime_dir). rewrite (snprintf_fits _ _ Hp).
  destruct (Z.gtb_spec (Z.of_nat (length (sock_path runtime_dir)) + 1)
              (Z.of_nat sizeof_sun_path)); [lia|].
  destruct (Z.ltb_spec (connect_ret w) 0); [reflexivity | lia].
Qed.

(** Past the connect: the world lets the call reach the first loop. *)
Section Connected.

Variables (w : World) (runtime_dir command : cstring) (reply : list ascii).
Hypothesis Hc : connects w runtime_dir.

(** Once connected, the call is the two loops and what follows them. *)
Lemma path_connected :
  session_comm w command reply =
    let fd := socket_ret w in
    match write_loop fd command (write_script w) with
    | None => None
    | Some (r, wevs) =>
      if r =? 0 then
        Some (Outcome (-1) reply
                (opened w runtime_dir ++ wevs
                   ++ [EvStderr msg_nothing_written; EvClose fd]))
      else
        match read_loop fd reply (read_script w) with
        | None => None
        | Some (r, reply', revs) =>
          if r =? 0 then
            Some (Outcome (-1) reply'
                    (opened w runtime_dir ++ wevs ++ revs
                       ++ [EvStderr msg_eof; EvClose fd]))
          else
            Some (Outcome 0 (store reply' (Z.to_nat r) NUL)
                    (opened w runtime_dir ++ wevs ++ revs
                       ++ store_events reply' (Z.to_nat r) ++ [EvClose fd]))
        end
    end.
Proof.
  pose proof Hc as (Hd & Hs & Hp & Hn). unfold path_fits in Hp.
  unfold session_comm. rewrite Hd.
  destruct (Z.ltb_spec (socket_ret w) 0); [lia|].
  fold (sock_path runtime_dir). rewrite (snprintf_fits _ _ Hp).
  destruct (Z.gtb_spec (Z.of_nat (length (sock_path runtime_dir)) + 1)
              (Z.of_nat sizeof_sun_path)); [lia|].
  destruct (Z.ltb_spec (connect_ret w) 0); [lia|].
  cbv zeta.
  destruct (write_loop _ command _) as [[r wevs]|]; [|reflexivity].
  destruct (r =? 0); [reflexivity|].
  destruct (read_loop _ reply _) as [[[r' reply'] revs]|]; reflexivity.
Qed.

Lemma path_read_failed (r : Z) (wevs : list event) (es : list Z) (e : Z)
    (rest : list read_result) :
  wrote w command r wevs ->
  read_script w = map ReadErr es ++ ReadErr e :: rest ->
  all_transient es ->
  transient e = false ->
  session_comm w command reply =
    Some (Outcome (-1) reply
            (opened w runtime_dir ++ wevs
               ++ (retried_reads (socket_ret w) (length reply) es
                     ++ [EvRead (socket_ret w) (length reply) (-1);
                         EvPerror "read"])
               ++ [EvStderr msg_eof; EvClose (socket_ret w)])).
Proof.
  intros (Hw & Hr) Hs Ht He.
  rewrite path_connected. cbv zeta. rewrite Hw.
  destruct (Z.eqb_spec r 0); [contradiction|].
  rewrite Hs, (read_loop_error _ _ _ _ _ Ht He). reflexivity.
Qed.

Lemma path_eof (r : Z) (wevs : list event) (es : list Z)
    (data : list ascii) (rest : list read_result) :
  wrote w command r wevs ->
  reads w es data rest ->
  received reply data = [] ->
  session_comm w command reply =
    Some (Outcome (-1) reply
            (opened w runtime_dir ++ wevs
               ++ (retried_reads (socket_ret w) (length reply) es
                     ++ [EvRead (socket_ret w) (length reply) 0])
               ++ [EvStderr msg_eof; EvClose (socket_ret w)])).
Proof.
  intros (Hw & Hr) (Hs & Ht) Hg.
  rewrite path_connected. cbv zeta. rewrite Hw.
  destruct (Z.eqb_spec r 0); [contradiction|].
  rewrite Hs, (read_loop_data _ _ _ _ _ Ht). cbv zeta. rewrite Hg.
  reflexivity.
Qed.

Lemma path_success (r : Z) (wevs : list event) (es : list Z)
    (data : list ascii) (rest : list read_result) :
  wrote w command r wevs ->
  reads w es data rest ->
  received reply data <> [] ->
  session_comm w command reply =
    let got := received reply data in
    let reply' := got ++ skipn (length got) reply in
    Some (Outcome 0 (store reply' (length got) NUL)
            (opened w runtime_dir ++ wevs
               ++ (retried_reads (socket_ret w) (length reply) es
                     ++ [EvRead (socket_ret w) (length reply)
                           (Z.of_nat (length got))])
               ++ store_events reply' (length got)
               ++ [EvClose (socket_ret w)])).
Proof.
  intros (Hw & Hr) (Hs & Ht) Hg.
  rewrite path_connected. cbv zeta. rewrite Hw.
  destruct (Z.eqb_spec r 0); [contradiction|].
  rewrite Hs, (read_loop_data _ _ _ _ _ Ht). cbv beta iota zeta.
  destruct (Z.of_nat (length (received reply data)) =? 0) eqn:E.
  - apply Z.eqb_eq in E.
    destruct (received reply data); [contradiction | discriminate].
  - rewrite Nat2Z.id. reflexivity.
Qed.

(** Whatever happens after the write loop, the bytes that went out are
    those of its last call. *)
Lemma session_comm_sent (r : Z) (wevs : list event) (o : outcome) :
  write_loop (socket_ret w) command (write_script w) = Some (r, wevs) ->
  session_comm w command reply = Some o ->
  sent (trace o) = transmitted command r.
Proof.
  intros Hw. rewrite path_connected. cbv zeta. rewrite Hw.
  destruct (write_loop_spec _ _ _ _ _ Hw) as (_ & _ & Hs).
  destruct (r =? 0).
  { intros ->%some_eq. cbn [trace]. rewrite !sent_app, Hs. simpl.
    now rewrite app_nil_r. }
  destruct (read_loop _ reply _) as [[[r' reply'] revs]|] eqn:Hr;
    [|discriminate].
  destruct (read_loop_spec _ _ _ _ _ _ Hr) as (_ & _ & _ & Hsr).
  destruct (r' =? 0); intros ->%some_eq; cbn [trace];
    rewrite !sent_app, Hs, Hsr, ?sent_store_events; simpl;
    now rewrite app_nil_r.
Qed.

End Connected.

Lemma path_fits_dec (runtime_dir : cstring) :
  {path_fits runtime_dir} + {~ path_fits runtime_dir}.
Proof. unfold path_fits. apply le_dec. Defined.

(** Every world is in one of five situations before the first write. *)
Lemma world_cases (w : World) :
  xdg_runtime_dir w = None \/
  exists runtime_dir, xdg_runtime_dir w = Some runtime_dir /\
    (socket_ret w < 0 \/
     0 <= socket_ret w /\
     (~ path_fits runtime_dir \/
      path_fits runtime_dir /\ (connect_ret w < 0 \/ 0 <= connect_ret w))).
Proof.
  destruct (xdg_runtime_dir w) as [d|]; [right; exists d; split; auto | auto].
  destruct (Z.lt_ge_cases (socket_ret w) 0); [auto | right; split; auto].
  destruct (path_fits_dec d); [right; split; auto | auto].
  destruct (Z.lt_ge_cases (connect_ret w) 0); auto.
Qed.

(** A world whose scripts settle lets the call return. *)
Lemma session_comm_returns (w : World) (command : cstring)
    (reply : list ascii) :
  settles_write (write_script w) ->
  settles_read (read_script w) ->
  exists o, session_comm w command reply = Some o.
Proof.
  intros Hw Hr.
  destruct (world_cases w) as [H|(d & Hd & [H|(Hs & [H|(Hp & [H|H])])])].
  - rewrite path_no_runtime_dir by assumption. eauto.
  - rewrite (path_socket_failed w d) by assumption. eauto.
  - rewrite (path_too_long w d) by assumption. eauto.
  - rewrite (path_connect_failed w d) by assumption. eauto.
  - rewrite (path_connected w d) by (repeat split; assumption). cbv zeta.
    destruct (write_loop_returns (socket_ret w) command _ Hw)
      as (r & wevs & ->).
    destruct (r =? 0); [eauto|].
    destruct (read_loop_returns (socket_ret w) reply _ Hr)
      as (r' & buf & revs & ->).
    destruct (r' =? 0); eauto.
Qed.

(** C2. On every path by which [session_comm] returns after [socket] has
    given a descriptor (success, path too long, connect failure, write
    failure, read failure or end of file) the trace holds exactly one
    [close], of that descriptor, and it is the last call made.  With
    scripts that settle the call does return. *)
Theorem session_comm_closes_once (w : World) (runtime_dir command : cstring)
    (reply : list ascii) :
  xdg_runtime_dir w = Some runtime_dir ->
  0 <= socket_ret w ->
  (settles_write (write_script w) -> settles_read (read_script w) ->
   exists o, session_comm w command reply = Some o) /\
  (forall o, session_comm w command reply = Some o ->
     closed (trace o) = [socket_ret w] /\
     exists before, trace o = before ++ [EvClose (socket_ret w)]).
Proof.
  intros Hd Hs. split; [apply session_comm_returns|].
  intros o.
  destruct (path_fits_dec runtime_dir) as [Hp|Hp].
  2:{ rewrite (path_too_long w runtime_dir) by assumption.
      intros [= <-]. split; [reflexivity|].
      now exists [EvSocket (socket_ret w);
                  EvStderr (msg_too_long runtime_dir)]. }
  destruct (Z.lt_ge_cases (connect_ret w) 0) as [Hc|Hc].
  { rewrite (path_connect_failed w runtime_dir) by assumption.
    intros [= <-]. split; [reflexivity|].
    now exists [EvSocket (socket_ret w);
                EvConnect (socket_ret w) (sock_path runtime_dir)
                  (connect_ret w);
                EvPerror "connect"]. }
  rewrite (path_connected w runtime_dir) by (repeat split; assumption).
  cbv zeta.
  destruct (write_loop _ command _) as [[r wevs]|] eqn:Hw; [|discriminate].
  destruct (write_loop_spec _ _ _ _ _ Hw) as (_ & Hcw & _).
  destruct (r =? 0).
  { intros ->%some_eq. cbn [trace]. split.
    - rewrite !closed_app, Hcw. reflexivity.
    - exists (opened w runtime_dir ++ wevs ++ [EvStderr msg_nothing_written]).
      rewrite <- !app_assoc. reflexivity. }
  destruct (read_loop _ reply _) as [[[r' reply'] revs]|] eqn:Hr;
    [|discriminate].
  destruct (read_loop_spec _ _ _ _ _ _ Hr) as (_ & _ & Hcr & _).
  destruct (r' =? 0); intros ->%some_eq; cbn [trace]; split.
  - rewrite !closed_app, Hcw, Hcr. reflexivity.
  - exists (opened w runtime_dir ++ wevs ++ revs ++ [EvStderr msg_eof]).
    rewrite <- !app_assoc. reflexivity.
  - rewrite !closed_app, Hcw, Hcr, closed_store_events. reflexivity.
  - exists (opened w runtime_dir ++ wevs ++ revs
              ++ store_events reply' (Z.to_nat r')).
    rewrite <- !app_assoc. reflexivity.
Qed.

(** ** The read step and the terminator *)

(** A reply shorter than the buffer is stored with its terminator. *)
Lemma store_terminates (reply data : list ascii) :
  (length data < length reply)%nat ->
  let got := received reply data in
  let reply' := got ++ skipn (length got) reply in
  got = data /\
  store reply' (length got) NUL =
    data ++ NUL :: skipn (S (length data)) reply /\
  store_events reply' (length got) = [].
Proof.
  intros H. cbv zeta.
  assert (E : received reply data = data)
    by (unfold received; apply firstn_all2; lia).
  rewrite E. unfold store, store_events.
  assert (L : length (data ++ skipn (length data) reply) = length reply)
    by (rewrite length_app, length_skipn; lia).
  rewrite L. destruct (Nat.ltb_spec (length data) (length reply)); [|lia].
  repeat split.
  rewrite firstn_app, firstn_all, Nat.sub_diag, firstn_O, app_nil_r.
  f_equal. f_equal.
  rewrite skipn_app, (skipn_all2 data) by lia.
  replace (S (length data) - length data)%nat with 1%nat by lia.
  rewrite skipn_skipn. reflexivity.
Qed.

(** A reply that fills the buffer leaves no room: the store of the
    terminator falls on the index just after the last byte. *)
Lemma store_outside (reply data : list ascii) :
  (length reply <= length data)%nat ->
  let got := received reply data in
  let reply' := got ++ skipn (length got) reply in
  length got = length reply /\
  store reply' (length got) NUL = got /\
  store_events reply' (length got) =
    [EvStoreOutside (length reply) (length reply)].
Proof.
  intros H. cbv zeta.
  assert (L : length (received reply data) = length reply)
    by (rewrite length_received; lia).
  rewrite L, skipn_all, app_nil_r. unfold store, store_events. rewrite L.
  rewrite Nat.ltb_irrefl. auto.
Qed.

(** C1, at the failing inputs.  When the daemon's reply fills the buffer
    ([read] returns [reply_size]) the call returns 0 and the buffer holds
    the bytes read, but the terminator was stored at index [reply_size]:
    the trace reports a store outside the array. *)
Theorem terminator_outside_when_reply_fills_buffer (w : World)
    (runtime_dir command : cstring) (reply : list ascii) (r : Z)
    (wevs : list event) (es : list Z) (data : list ascii)
    (rest : list read_result) :
  connects w runtime_dir ->
  wrote w command r wevs ->
  reads w es data rest ->
  (0 < length reply <= length data)%nat ->
  exists o,
    session_comm w command reply = Some o /\
    ret o = 0 /\
    reply_mem o = firstn (length reply) data /\
    In (EvRead (socket_ret w) (length reply) (Z.of_nat (length reply)))
       (trace o) /\
    In (EvStoreOutside (length reply) (length reply)) (trace o).
Proof.
  intros Hc Hw Hr [Hpos Hle].
  destruct (store_outside reply data Hle) as (L & Hst & Hev).
  assert (Hg : received reply data <> []).
  { intros E. rewrite E in L. simpl in L. lia. }
  rewrite (path_success _ _ _ _ Hc _ _ _ _ _ Hw Hr Hg). cbv zeta.
  rewrite Hst, Hev, L. eexists. split; [reflexivity|].
  cbn [ret reply_mem trace].
  repeat split.
  - rewrite !in_app_iff. right. right. left. right. left. reflexivity.
  - rewrite !in_app_iff. right. right. right. left. left. reflexivity.
Qed.

(** ** The write step *)

(** C3 as stated fails: a [write] that takes only 5 of the 17 bytes of
    the command is counted as a success. *)
Lemma short_write_counts_as_success :
  let w := narrow_socket 5 "42" in
  let command := lit "volume default 42" in
  exists o,
    session_comm w command (reply_array w) = Some o /\
    ret o = 0 /\
    sent (trace o) = lit "volum" /\
    sent (trace o) <> command.
Proof.
  eexists. split; [vm_compute; reflexivity|].
  split; [reflexivity|]. split; [reflexivity | discriminate].
Qed.

Lemma interrupted_transient (es : list Z) : interrupted es -> all_transient es.
Proof.
  unfold interrupted, all_transient. apply Forall_impl.
  intros e [-> | ->]; reflexivity.
Qed.

Lemma other_error_not_transient (e : Z) :
  e <> EAGAIN -> e <> EINTR -> transient e = false.
Proof.
  intros H1 H2. unfold transient.
  apply orb_false_iff. split; now apply Z.eqb_neq.
Qed.

Lemma retries_print_nothing (fd : Z) (command : cstring) (count : nat)
    (es : list Z) :
  diagnostics (retried_writes fd command es) = [] /\
  diagnostics (retried_reads fd count es) = [].
Proof. induction es as [|e es [IH1 IH2]]; split; auto. Qed.

(** C3, amended.  [session_comm] offers the whole command to [write] in
    one call.  The call is made again after each error EAGAIN or EINTR.
    Any other error ends the exchange with -1, and so does a count of
    zero.  A positive count [r] lets the exchange go on to the read,
    whether or not [r] is [strlen(command)], and a short count is not
    reported: a call that then reads a reply returns 0 having printed
    nothing.  The bytes that went out are the first [r] of the command,
    all of it exactly when the socket had room for all. *)
Theorem write_step (w : World) (runtime_dir command : cstring)
    (reply : list ascii) (es : list Z) (final : write_result)
    (rest : list write_result) :
  connects w runtime_dir ->
  write_script w = map WriteErr es ++ final :: rest ->
  interrupted es ->
  let fd := socket_ret w in
  let retries := retried_writes fd command es in
  match final with
  | WriteErr e =>
      e <> EAGAIN -> e <> EINTR ->
      session_comm w command reply =
        Some (Outcome (-1) reply
                (opened w runtime_dir
                   ++ (retries ++ [EvWrite fd command (-1); EvPerror "write"])
                   ++ [EvStderr msg_nothing_written; EvClose fd]))
  | WriteOk room =>
      let r := Nat.min room (length command) in
      let written :=
        opened w runtime_dir ++ retries ++ [EvWrite fd command (Z.of_nat r)] in
      write_loop fd command (write_script w) =
        Some (Z.of_nat r, retries ++ [EvWrite fd command (Z.of_nat r)]) /\
      (r = 0%nat ->
       session_comm w command reply =
         Some (Outcome (-1) reply
                 (opened w runtime_dir
                    ++ (retries ++ [EvWrite fd command 0])
                    ++ [EvStderr msg_nothing_written; EvClose fd]))) /\
      ((0 < r)%nat ->
       session_comm w command reply =
         match read_loop fd reply (read_script w) with
         | None => None
         | Some (r', reply', revs) =>
             if r' =? 0 then
               Some (Outcome (-1) reply'
                       (written ++ revs ++ [EvStderr msg_eof; EvClose fd]))
             else
               Some (Outcome 0 (store reply' (Z.to_nat r') NUL)
                       (written ++ revs
                          ++ store_events reply' (Z.to_nat r')
                          ++ [EvClose fd]))
         end) /\
      ((0 < r)%nat ->
       forall es' data rest',
         read_script w = map ReadErr es' ++ ReadOk data :: rest' ->
         interrupted es' ->
         received reply data <> [] ->
         exists o,
           session_comm w command reply = Some o /\
           ret o = 0 /\
           diagnostics (trace o) = [] /\
           sent (trace o) = firstn r command) /\
      (forall o, session_comm w command reply = Some o ->
         sent (trace o) = firstn r command /\
         (ret o = 0 -> (1 <= r <= length command)%nat) /\
         (sent (trace o) = command <-> (length command <= room)%nat))
  end.
Proof.
  intros Hc Hs Hi fd retries.
  pose proof (interrupted_transient es Hi) as Ht.
  destruct final as [e|room].
  - intros H1 H2. pose proof (other_error_not_transient e H1 H2) as He.
    rewrite (path_connected _ _ _ _ Hc). cbv zeta.
    rewrite Hs, (write_loop_error _ _ _ _ _ Ht He). reflexivity.
  - cbv zeta.
    assert (Hw : write_loop (socket_ret w) command (write_script w) =
                 Some (Z.of_nat (Nat.min room (length command)),
                       retried_writes (socket_ret w) command es
                         ++ [EvWrite (socket_ret w) command
                               (Z.of_nat (Nat.min room (length command)))]))
      by (rewrite Hs; apply (write_loop_count _ _ _ _ _ Ht)).
    split; [exact Hw|]. split; [|split; [|split]].
    + intros E. rewrite (path_connected _ _ _ _ Hc). cbv zeta.
      rewrite Hw, E. reflexivity.
    + intros Hpos. rewrite (path_connected _ _ _ _ Hc). cbv zeta.
      rewrite Hw.
      destruct (Z.eqb_spec (Z.of_nat (Nat.min room (length command))) 0);
        [lia|].
      destruct (read_loop _ reply _) as [[[r' reply'] revs]|];
        [|reflexivity].
      destruct (r' =? 0); rewrite <- !app_assoc; reflexivity.
    + intros Hpos es' data rest' Hs' Hi' Hg.
      assert (Hwr : wrote w command
                      (Z.of_nat (Nat.min room (length command)))
                      (retried_writes (socket_ret w) command es
                         ++ [EvWrite (socket_ret w) command
                               (Z.of_nat (Nat.min room (length command)))]))
        by (split; [exact Hw | lia]).
      assert (Hr : reads w es' data rest')
        by (split; [exact Hs' | now apply interrupted_transient]).
      pose proof (path_success _ _ _ reply Hc _ _ _ _ _ Hwr Hr Hg) as Hp.
      cbv zeta in Hp. eexists. split; [exact Hp|].
      split; [reflexivity|]. split.
      * cbn [trace]. rewrite !diagnostics_app.
        destruct (retries_print_nothing (socket_ret w) command
                    (length reply) es) as (-> & _).
        destruct (retries_print_nothing (socket_ret w) command
                    (length reply) es') as (_ & ->).
        unfold store_events. destruct (_ <? _)%nat; reflexivity.
      * rewrite (session_comm_sent _ _ _ _ Hc _ _ _ Hw Hp).
        unfold transmitted. now rewrite Nat2Z.id.
    + intros o Ho.
      pose proof (session_comm_sent _ _ _ _ Hc _ _ _ Hw Ho) as Hsent.
      unfold transmitted in Hsent. rewrite Nat2Z.id in Hsent.
      split; [exact Hsent|]. split.
      * intros Hret. split; [|lia].
        destruct (Nat.min room (length command)) eqn:E; [|lia].
        exfalso. revert Ho. rewrite (path_connected _ _ _ _ Hc). cbv zeta.
        rewrite Hw. simpl. intros ->%some_eq. discriminate.
      * rewrite Hsent. split.
        -- intros E. apply (f_equal (@length ascii)) in E.
           rewrite length_firstn in E. lia.
        -- intros E. apply firstn_all2. lia.
Qed.

(** ** atoi on a terminated buffer *)

Lemma digits_terminated (s junk : list ascii) (acc : Z) :
  digits (s ++ NUL :: junk) acc = digits s acc.
Proof.
  revert acc. induction s as [|c t IH]; intros acc; simpl; [reflexivity|].
  destruct (isdigit c); [apply IH | reflexivity].
Qed.

Lemma signed_digits_terminated (s junk : list ascii) :
  signed_digits (s ++ NUL :: junk) = signed_digits s.
Proof.
  destruct s as [|c t]; [reflexivity|].
  cbn [app signed_digits].
  rewrite (digits_terminated t), (app_comm_cons t (NUL :: junk) c),
    (digits_terminated (c :: t)).
  reflexivity.
Qed.

Lemma skip_spaces_terminated (s junk : list ascii) :
  signed_digits (skip_spaces (s ++ NUL :: junk)) =
  signed_digits (skip_spaces s).
Proof.
  induction s as [|c t IH]; [reflexivity|].
  cbn [app skip_spaces]. destruct (isspace c); [exact IH|].
  apply (signed_digits_terminated (c :: t)).
Qed.

(** [atoi] stops at the terminator: what lies after it is not read. *)
Lemma atoi_terminated (s junk : list ascii) :
  atoi (s ++ NUL :: junk) = atoi s.
Proof. unfold atoi, strtol. now rewrite skip_spaces_terminated. Qed.

(** The value [atoi] finds in the reply buffer after a successful
    exchange is that of the bytes received. *)
Lemma atoi_reply (reply data : list ascii) :
  let got := received reply data in
  atoi (store (got ++ skipn (length got) reply) (length got) NUL) = atoi got.
Proof.
  cbv zeta. destruct (Nat.lt_ge_cases (length data) (length reply)) as [H|H].
  - destruct (store_terminates reply data H) as (-> & -> & _).
    apply atoi_terminated.
  - destruct (store_outside reply data H) as (_ & -> & _). reflexivity.
Qed.

Lemma length_reply_array (w : World) : length (reply_array w) = sizeof_reply.
Proof. unfold reply_array. now rewrite length_map, length_seq. Qed.

(** ** The callbacks *)

Lemma format_command_text (v : verb) (role : option cstring) (x : Z) :
  format_command v role x = firstn 99 (command_text v role x).
Proof. reflexivity. Qed.

Lemma handler_callback (v : verb) (w : World) (request : afb_req) :
  handler v w request = callback v w request.
Proof. destruct v; reflexivity. Qed.

Lemma callback_query (v : verb) (w : World) (request : afb_req) :
  req_value request = None ->
  callback v w request =
    exchange v w (format_command v (req_role request) (-1)).
Proof. unfold callback. intros ->. reflexivity. Qed.

Lemma callback_in_range (v : verb) (w : World) (request : afb_req)
    (s : cstring) :
  req_value request = Some s ->
  0 <= atoi s <= verb_max v ->
  callback v w request =
    exchange v w (format_command v (req_role request) (atoi s)).
Proof.
  unfold callback. intros -> H.
  destruct (Z.ltb_spec (atoi s) 0); [lia|].
  destruct (Z.gtb_spec (atoi s) (verb_max v)); [lia | reflexivity].
Qed.

Lemma callback_out_of_range (v : verb) (w : World) (request : afb_req)
    (s : cstring) :
  req_value request = Some s ->
  ~ 0 <= atoi s <= verb_max v ->
  callback v w request = rejected v.
Proof.
  unfold callback. intros -> H.
  destruct (Z.ltb_spec (atoi s) 0); [reflexivity|].
  destruct (Z.gtb_spec (atoi s) (verb_max v)); [reflexivity | lia].
Qed.

Lemma callback_accepted (v : verb) (w : World) (request : afb_req)
    (command : cstring) :
  accepted v request command ->
  callback v w request = exchange v w command.
Proof.
  unfold accepted. destruct (req_value request) as [s|] eqn:E.
  - intros [H ->]. now apply callback_in_range.
  - intros ->. now apply callback_query.
Qed.

Lemma exchange_failed (v : verb) (w : World) (command : cstring)
    (o : outcome) :
  session_comm w command (reply_array w) = Some o ->
  ret o < 0 ->
  exchange v w command = Some (afb_req_fail "failed" msg_comm_failed, trace o).
Proof.
  unfold exchange. intros -> H.
  destruct (Z.ltb_spec (ret o) 0); [reflexivity | lia].
Qed.

Lemma exchange_succeeded (v : verb) (w : World) (command : cstring)
    (o : outcome) :
  session_comm w command (reply_array w) = Some o ->
  ret o = 0 ->
  exchange v w command = Some (answer v (atoi (reply_mem o)), trace o).
Proof.
  unfold exchange, answer. intros -> H. rewrite H. cbn [Z.ltb Z.compare].
  destruct (atoi (reply_mem o) <? 0); reflexivity.
Qed.

(** When the exchange reaches a read that brings bytes, the answer is
    [atoi] of the bytes that fit the reply array. *)
Lemma exchange_delivers (v : verb) (w : World)
    (runtime_dir command : cstring) (r : Z) (wevs : list event)
    (es : list Z) (data : list ascii) (rest : list read_result) :
  connects w runtime_dir ->
  wrote w command r wevs ->
  reads w es data rest ->
  data <> [] ->
  exists tr,
    exchange v w command =
      Some (answer v (atoi (firstn sizeof_reply data)), tr).
Proof.
  intros Hc Hw Hr Hd.
  assert (Hg : received (reply_array w) data <> []).
  { unfold received. rewrite length_reply_array.
    destruct data; [contradiction | discriminate]. }
  pose proof (path_success _ _ _ (reply_array w) Hc _ _ _ _ _ Hw Hr Hg)
    as Hp.
  cbv zeta in Hp. rewrite (exchange_succeeded v _ _ _ Hp eq_refl).
  cbn [reply_mem trace]. rewrite atoi_reply. unfold received.
  rewrite length_reply_array. eauto.
Qed.

(** ** Transport failures *)

(** Each transport failure makes [session_comm] return -1. *)
Lemma transport_failure_ret (w : World) (command : cstring)
    (reply : list ascii) :
  transport_failure w command ->
  exists o, session_comm w command reply = Some o /\ ret o = -1.
Proof.
  intros [H|d H1 H2|d H1 H2 H3|d H1 H2 H3 H4|d es e rest Hc Hs Ht He
          |d es room rest Hc Hs Ht Hz|d r wevs es e rest Hc Hw Hs Ht He
          |d r wevs es rest Hc Hw Hr].
  - rewrite path_no_runtime_dir by assumption. eauto.
  - rewrite (path_socket_failed w d) by assumption. eauto.
  - rewrite (path_too_long w d) by assumption. eauto.
  - rewrite (path_connect_failed w d) by assumption. eauto.
  - rewrite (path_connected _ _ _ _ Hc). cbv zeta.
    rewrite Hs, (write_loop_error _ _ _ _ _ Ht He). simpl. eauto.
  - rewrite (path_connected _ _ _ _ Hc). cbv zeta.
    rewrite Hs, (write_loop_count _ _ _ _ _ Ht). cbv zeta. rewrite Hz.
    simpl. eauto.
  - rewrite (path_read_failed _ _ _ _ Hc _ _ _ _ _ Hw Hs Ht He). eauto.
  - rewrite (path_eof _ _ _ _ Hc _ _ _ _ _ Hw Hr); [eauto|].
    unfold received. apply firstn_nil.
Qed.

(** C4. For each of the three callbacks and a request that passes the
    range check: every transport failure (no runtime directory, socket,
    path too long, connect, write, read, end of file) is answered with
    the one message "media-session communication failed"; an exchange
    that returned 0 with a reply parsing to a negative integer is
    answered with "media-session replied -1"; the two answers differ. *)
Theorem failures_at_the_boundary (v : verb) (w : World) (request : afb_req)
    (command : cstring) :
  accepted v request command ->
  (transport_failure w command ->
   exists tr,
     handler v w request =
       Some (afb_req_fail "failed" msg_comm_failed, tr)) /\
  (forall o, session_comm w command (reply_array w) = Some o ->
     ret o < 0 ->
     handler v w request =
       Some (afb_req_fail "failed" msg_comm_failed, trace o)) /\
  (forall o, session_comm w command (reply_array w) = Some o ->
     ret o = 0 ->
     atoi (reply_mem o) < 0 ->
     handler v w request =
       Some (afb_req_fail "failed" msg_replied, trace o)) /\
  afb_req_fail "failed" msg_comm_failed <> afb_req_fail "failed" msg_replied.
Proof.
  intros Ha. rewrite handler_callback, (callback_accepted _ w _ _ Ha).
  split; [|split; [|split]].
  - intros Hf.
    destruct (transport_failure_ret _ _ (reply_array w) Hf) as (o & Ho & Hr).
    exists (trace o). apply exchange_failed; [assumption | lia].
  - intros o Ho Hr. now apply exchange_failed.
  - intros o Ho Hr Hx. rewrite (exchange_succeeded _ _ _ _ Ho Hr).
    unfold answer. destruct (Z.ltb_spec (atoi (reply_mem o)) 0);
      [reflexivity | lia].
  - discriminate.
Qed.

(** The answer of an exchange is never the "Invalid ... value" message
    of the range check. *)
Lemma exchange_not_rejected (v : verb) (w : World) (command : cstring)
    (tr : list event) :
  exchange v w command <> Some (afb_req_fail "failed" (msg_invalid v), tr).
Proof.
  unfold exchange.
  destruct (session_comm w command (reply_array w)) as [o|]; [|discriminate].
  destruct (ret o <? 0); [destruct v; discriminate|].
  destruct (atoi (reply_mem o) <? 0); destruct v; discriminate.
Qed.



(** ** The address check *)

(** Whenever [session_comm] returns with a path that fits, the trace
    opens with the socket and the connect to the whole path. *)
Lemma session_comm_connect_attempted (w : World)
    (runtime_dir command : cstring) (reply : list ascii) (o : outcome) :
  xdg_runtime_dir w = Some runtime_dir ->
  0 <= socket_ret w ->
  path_fits runtime_dir ->
  session_comm w command reply = Some o ->
  exists tr,
    trace o =
      EvSocket (socket_ret w)
        :: EvConnect (socket_ret w) (sock_path runtime_dir) (connect_ret w)
        :: tr.
Proof.
  intros Hd Hs Hp.
  destruct (Z.lt_ge_cases (connect_ret w) 0) as [Hc|Hc].
  { rewrite (path_connect_failed w runtime_dir) by assumption.
    intros ->%some_eq. cbn [trace]. eauto. }
  rewrite (path_connected w runtime_dir) by (repeat split; assumption).
  cbv zeta.
  destruct (write_loop _ command _) as [[r wevs]|]; [|discriminate].
  destruct (r =? 0); [intros ->%some_eq; cbn [trace opened app]; eauto|].
  destruct (read_loop _ reply _) as [[[r' reply'] revs]|]; [|discriminate].
  destruct (r' =? 0); intros ->%some_eq; cbn [trace opened app]; eauto.
Qed.

(** C6. With the runtime directory [runtime_dir], the path is
    [runtime_dir/pipewire-media-session].  If the path with its
    terminator is longer than 108 bytes, [session_comm] returns -1
    without any [connect]; once the socket exists, what it does is print
    the "exceeds 108 bytes" message and close.  If the path with its
    terminator is at most 108 bytes, 107 characters included, the check
    passes: [connect] is called on the whole path. *)
Theorem address_length_check (w : World) (runtime_dir command : cstring)
    (reply : list ascii) :
  xdg_runtime_dir w = Some runtime_dir ->
  let path := runtime_dir ++ lit "/" ++ NAME in
  ((108 < length path + 1)%nat ->
   exists o,
     session_comm w command reply = Some o /\
     ret o = -1 /\
     connects_in (trace o) = [] /\
     (0 <= socket_ret w ->
      trace o = [EvSocket (socket_ret w); EvStderr (msg_too_long runtime_dir);
                 EvClose (socket_ret w)])) /\
  ((length path + 1 <= 108)%nat ->
   0 <= socket_ret w ->
   (connect_ret w < 0 ->
    session_comm w command reply =
      Some (Outcome (-1) reply
              [EvSocket (socket_ret w);
               EvConnect (socket_ret w) path (connect_ret w);
               EvPerror "connect"; EvClose (socket_ret w)])) /\
   (forall o, session_comm w command reply = Some o ->
      exists tr,
        trace o =
          EvSocket (socket_ret w)
            :: EvConnect (socket_ret w) path (connect_ret w) :: tr)).
Proof.
  intros Hd path. split.
  - intros Hlong.
    assert (Hp : ~ path_fits runtime_dir)
      by (unfold path_fits, sock_path, sizeof_sun_path; fold path; lia).
    destruct (Z.lt_ge_cases (socket_ret w) 0) as [Hs|Hs].
    + rewrite (path_socket_failed w runtime_dir) by assumption.
      eexists. split; [reflexivity|]. cbn [ret trace].
      repeat split. lia.
    + rewrite (path_too_long w runtime_dir) by assumption.
      eexists. split; [reflexivity|]. cbn [ret trace]. repeat split.
  - intros Hfit Hs.
    assert (Hp : path_fits runtime_dir)
      by (unfold path_fits, sock_path, sizeof_sun_path; fold path; lia).
    split.
    + intros Hc. now apply path_connect_failed.
    + intros o. now apply session_comm_connect_attempted.
Qed.

(** ** The read step *)

Lemma firstn_length_app {A : Type} (a b : list A) :
  firstn (length a) (a ++ b) = a.
Proof.
  now rewrite firstn_app, firstn_all, Nat.sub_diag, firstn_O, app_nil_r.
Qed.

(** C7. Once the command is written, [session_comm] calls [read] again
    after each error EAGAIN or EINTR and takes the first other answer as
    the outcome of the one read: the rest of the script is never
    consulted.  A count of zero (the connection was closed before any
    data) ends the call with -1 and the message "EOF", the reply buffer
    untouched, and no empty reply is returned; a positive count ends it
    with 0 and the bytes read in the buffer; an error other than EAGAIN
    and EINTR is not retried. *)
Theorem read_step (w : World) (runtime_dir command : cstring)
    (reply : list ascii) (r : Z) (wevs : list event) (es : list Z)
    (final : read_result) (rest : list read_result) :
  connects w runtime_dir ->
  wrote w command r wevs ->
  read_script w = map ReadErr es ++ final :: rest ->
  interrupted es ->
  let fd := socket_ret w in
  let count := length reply in
  let before := opened w runtime_dir ++ wevs ++ retried_reads fd count es in
  match final with
  | ReadErr e =>
      e <> EAGAIN -> e <> EINTR ->
      session_comm w command reply =
        Some (Outcome (-1) reply
                (before ++ [EvRead fd count (-1); EvPerror "read";
                            EvStderr msg_eof; EvClose fd]))
  | ReadOk data =>
      let got := received reply data in
      (got = [] ->
       session_comm w command reply =
         Some (Outcome (-1) reply
                 (before
                    ++ [EvRead fd count 0; EvStderr msg_eof; EvClose fd]))) /\
      (got <> [] ->
       exists o tr,
         session_comm w command reply = Some o /\
         ret o = 0 /\
         firstn (length got) (reply_mem o) = got /\
         trace o = before ++ EvRead fd count (Z.of_nat (length got)) :: tr /\
         (forall fd' count' r', ~ In (EvRead fd' count' r') tr))
  end.
Proof.
  intros Hc Hw Hs Hi fd count before.
  pose proof (interrupted_transient es Hi) as Ht.
  destruct final as [e|data].
  - intros H1 H2. pose proof (other_error_not_transient e H1 H2) as He.
    rewrite (path_read_failed _ _ _ _ Hc _ _ _ _ _ Hw Hs Ht He).
    unfold before. rewrite <- !app_assoc. reflexivity.
  - assert (Hr : reads w es data rest) by (split; assumption).
    intros got. split; intros Hg.
    + rewrite (path_eof _ _ _ _ Hc _ _ _ _ _ Hw Hr Hg).
      unfold before. rewrite <- !app_assoc. reflexivity.
    + rewrite (path_success _ _ _ _ Hc _ _ _ _ _ Hw Hr Hg). cbv zeta.
      fold got fd count. eexists. eexists. split; [reflexivity|].
      cbn [ret reply_mem trace]. split; [reflexivity|]. split; [|split].
      * unfold store.
        destruct (length got <? _)%nat; now rewrite !firstn_length_app.
      * unfold before. rewrite <- !app_assoc. reflexivity.
      * intros fd' count' r'. rewrite in_app_iff. unfold store_events.
        destruct (length got <? _)%nat; simpl; intuition discriminate.
Qed.

(** ** What the callbacks put on the wire *)

(** Every [write] of [session_comm] is given the command itself. *)
Lemma session_comm_offered (w : World) (command : cstring)
    (reply : list ascii) (o : outcome) :
  session_comm w command reply = Some o ->
  Forall (eq command) (offered (trace o)).
Proof.
  destruct (world_cases w) as [H|(d & Hd & [H|(Hs & [H|(Hp & [H|H])])])].
  - rewrite path_no_runtime_dir by assumption.
    intros ->%some_eq. constructor.
  - rewrite (path_socket_failed w d) by assumption.
    intros ->%some_eq. constructor.
  - rewrite (path_too_long w d) by assumption.
    intros ->%some_eq. constructor.
  - rewrite (path_connect_failed w d) by assumption.
    intros ->%some_eq. constructor.
  - rewrite (path_connected w d) by (repeat split; assumption). cbv zeta.
    destruct (write_loop _ command _) as [[r wevs]|] eqn:Hw; [|discriminate].
    pose proof (write_loop_offered _ _ _ _ _ Hw) as Ho.
    destruct (r =? 0).
    { intros ->%some_eq. cbn [trace]. rewrite !offered_app. simpl.
      now rewrite app_nil_r. }
    destruct (read_loop _ reply _) as [[[r' reply'] revs]|] eqn:Hr;
      [|discriminate].
    pose proof (read_loop_offered _ _ _ _ _ _ Hr) as Hor.
    destruct (r' =? 0); intros ->%some_eq; cbn [trace];
      rewrite !offered_app, Hor, ?offered_store_events; simpl;
      now rewrite app_nil_r.
Qed.

Lemma exchange_offered (v : verb) (w : World) (command : cstring)
    (a : afb_reply) (tr : list event) :
  exchange v w command = Some (a, tr) ->
  Forall (eq command) (offered tr).
Proof.
  unfold exchange.
  destruct (session_comm w command (reply_array w)) as [o|] eqn:Ho;
    [|discriminate].
  pose proof (session_comm_offered _ _ _ _ Ho) as H.
  destruct (ret o <? 0); [intros [= <- <-]; exact H|].
  destruct (atoi (reply_mem o) <? 0); intros [= <- <-]; exact H.
Qed.

(** C8 as stated fails: with a role of 100 characters the bytes written
    for a query are the first 99 of the text, which end inside the role,
    and not "volume <role> -1". *)
Lemma long_role_is_cut :
  let w := cooperative "/run/user/1000" "42" in
  let request := {| req_role := Some long_role; req_value := None |} in
  exists a tr,
    volume w request = Some (a, tr) /\
    sent tr = lit "volume " ++ repeat "a"%char 92 /\
    sent tr <> lit "volume " ++ long_role ++ lit " -1".
Proof.
  eexists. eexists. split; [vm_compute; reflexivity|].
  split; [vm_compute; reflexivity|].
  intros E. apply (f_equal (@length ascii)) in E. vm_compute in E.
  discriminate.
Qed.

(** C8, amended.  Each callback formats "<verb> <role> <x>", where [x] is
    -1 when no value is supplied and the parsed value when a value in
    range is, and gives the transport the first 99 bytes of that text:
    the whole of it whenever it is at most 99 bytes long.  Every [write]
    of the exchange is handed that command.  With the runtime directory
    /run/user/1000, the role "default" and the value "42", [volume]
    writes exactly "volume default 42", and the reply "42" gives the
    object with member volume = 42. *)
Theorem command_format (v : verb) (w : World) (request : afb_req) :
  let role := req_role request in
  let text x := lit (verb_name v) ++ lit " " ++ fmt_s role ++ lit " "
                  ++ fmt_d x in
  (req_value request = None ->
   handler v w request = exchange v w (firstn 99 (text (-1)))) /\
  (forall s, req_value request = Some s ->
     0 <= atoi s <= verb_max v ->
     handler v w request = exchange v w (firstn 99 (text (atoi s)))) /\
  (forall x, (length (text x) <= 99)%nat -> firstn 99 (text x) = text x) /\
  fmt_d (-1) = lit "-1" /\
  (forall command a tr buf,
     exchange v w command = Some (a, tr) -> In buf (offered tr) ->
     buf = command) /\
  volume (cooperative "/run/user/1000" "42")
         {| req_role := Some (lit "default"); req_value := Some (lit "42") |} =
    Some (afb_req_success [("volume"%string, 42)],
          [EvSocket 3;
           EvConnect 3 (lit "/run/user/1000/pipewire-media-session") 0;
           EvWrite 3 (lit "volume default 42") 17;
           EvRead 3 10 2;
           EvClose 3]).
Proof.
  intros role text. rewrite handler_callback. repeat split.
  - intros H. apply (callback_query v w request H).
  - intros s H Hr. apply (callback_in_range v w request s H Hr).
  - intros x H. apply firstn_all2. exact H.
  - intros command a tr buf H Hin.
    pose proof (exchange_offered _ _ _ _ _ H) as Hall.
    rewrite Forall_forall in Hall. symmetry. now apply Hall.
Qed.

(** ** Values and replies that are not numerals *)

(** Text that does not begin with white space, a sign or a digit parses
    to 0. *)
Lemma atoi_not_a_number (c : ascii) (t : list ascii) :
  isspace c = false ->
  isdigit c = false ->
  (c =? "-")%char = false ->
  (c =? "+")%char = false ->
  atoi (c :: t) = 0.
Proof.
  intros Hs Hd Hm Hp. unfold atoi, strtol. cbn [skip_spaces]. rewrite Hs.
  cbn [signed_digits digits]. rewrite Hm, Hp, Hd. reflexivity.
Qed.

(** A set command of value 0 that fits the buffer is not the query. *)
Lemma set_differs_from_query (verb_and_space role : cstring) :
  (length (verb_and_space ++ role ++ lit " 0") <= 99)%nat ->
  verb_and_space ++ role ++ lit " 0" <>
  firstn 99 (verb_and_space ++ role ++ lit " " ++ lit "-1").
Proof.
  rewrite (app_assoc verb_and_space role (lit " 0")),
    (app_assoc verb_and_space role (lit " " ++ lit "-1")).
  set (pre := verb_and_space ++ role).
  rewrite length_app. cbn [lit list_ascii_of_string length]. intros Hlen.
  rewrite firstn_app, (firstn_all2 pre) by lia.
  intros E. apply app_inv_head in E.
  destruct (99 - length pre)%nat as [|[|k]] eqn:Hk; [lia | lia |].
  discriminate.
Qed.

(** C9 as stated fails: with a role of 100 characters and the value
    "abc" the bytes written are the first 99 of the text, not
    "zone <role> 0", and the call is the same as the query without a
    value. *)
Lemma long_role_hides_the_value :
  let w := cooperative "/run/user/1000" "0" in
  let set := {| req_role := Some long_role; req_value := Some (lit "abc") |} in
  let query := {| req_role := Some long_role; req_value := None |} in
  exists a tr,
    zone w set = Some (a, tr) /\
    sent tr = lit "zone " ++ repeat "a"%char 94 /\
    sent tr <> lit "zone " ++ long_role ++ lit " 0" /\
    zone w query = Some (a, tr).
Proof.
  eexists. eexists. split; [vm_compute; reflexivity|].
  split; [vm_compute; reflexivity|]. split; [|vm_compute; reflexivity].
  intros E. apply (f_equal (@length ascii)) in E. vm_compute in E.
  discriminate.
Qed.

(** C9, amended.  A supplied value that [atoi] parses to 0, numeral or
    not, passes the range check of every verb: the callback goes on to
    the exchange with the text "<verb> <role> 0" cut to the 99 bytes of
    the command buffer, every [write] is handed that command, and the
    answer is never the "Invalid ... value" message.  Whenever the text
    is at most 99 bytes long the command is the whole of it and is not
    the command of a query. *)
Theorem value_parsing_to_zero_is_a_set (v : verb) (w : World)
    (request : afb_req) (s : cstring) :
  req_value request = Some s ->
  atoi s = 0 ->
  let role := req_role request in
  let text := lit (verb_name v) ++ lit " " ++ fmt_s role ++ lit " 0" in
  handler v w request = exchange v w (firstn 99 text) /\
  (forall a tr buf,
     handler v w request = Some (a, tr) -> In buf (offered tr) ->
     buf = firstn 99 text) /\
  (forall tr,
     handler v w request <> Some (afb_req_fail "failed" (msg_invalid v), tr)) /\
  ((length text <= 99)%nat ->
   firstn 99 text = text /\
   firstn 99 text <> format_command v role (-1)).
Proof.
  intros Hv H0 role text.
  assert (Hcb : handler v w request = exchange v w (firstn 99 text)).
  { rewrite handler_callback, (callback_in_range v w request s Hv)
      by (rewrite H0; destruct v; simpl; lia).
    rewrite H0. reflexivity. }
  split; [exact Hcb|]. rewrite Hcb. split; [|split].
  - intros a tr buf H Hin.
    pose proof (exchange_offered _ _ _ _ _ H) as Hall.
    rewrite Forall_forall in Hall. symmetry. now apply Hall.
  - intros tr. apply exchange_not_rejected.
  - intros Hlen. split; [apply firstn_all2; exact Hlen|].
    rewrite (firstn_all2 text) by exact Hlen.
    rewrite format_command_text. unfold command_text, text in *.
    change (fmt_d (-1)) with (lit "-1").
    rewrite (app_assoc (lit (verb_name v)) (lit " ")
               (fmt_s role ++ lit " 0")) in Hlen |- *.
    rewrite (app_assoc (lit (verb_name v)) (lit " ")
               (fmt_s role ++ lit " " ++ lit "-1")).
    exact (set_differs_from_query _ _ Hlen).
Qed.

(** C10. When the exchange of an accepted request reaches a read that
    brings bytes, the callback answers from [atoi] of the raw bytes that
    fit the reply array, numeral or not: success carrying the parsed
    integer when it is not negative, "media-session replied -1" only when
    it is negative.  Text that starts with no white space, sign or digit
    parses to 0 and so gives a success carrying 0. *)
Theorem reply_parsed_with_atoi (v : verb) (w : World) (request : afb_req)
    (runtime_dir command : cstring) (r : Z) (wevs : list event)
    (es : list Z) (data : list ascii) (rest : list read_result) :
  accepted v request command ->
  connects w runtime_dir ->
  wrote w command r wevs ->
  reads w es data rest ->
  data <> [] ->
  let x := atoi (firstn sizeof_reply data) in
  (exists tr,
     handler v w request =
       Some (if x <? 0 then afb_req_fail "failed" msg_replied
             else afb_req_success [(verb_name v, x)], tr)) /\
  (forall c t, data = c :: t ->
     isspace c = false -> isdigit c = false ->
     (c =? "-")%char = false -> (c =? "+")%char = false ->
     exists tr,
       handler v w request =
         Some (afb_req_success [(verb_name v, 0)], tr)).
Proof.
  intros Ha Hc Hw Hr Hd x.
  destruct (exchange_delivers v _ _ _ _ _ _ _ _ Hc Hw Hr Hd) as (tr & Hx).
  rewrite handler_callback, (callback_accepted _ w _ _ Ha), Hx. split.
  - exists tr. reflexivity.
  - intros c t -> Hs Hdg Hm Hp. exists tr. do 2 f_equal.
    change (firstn sizeof_reply (c :: t)) with (c :: firstn 9 t).
    rewrite (atoi_not_a_number c _ Hs Hdg Hm Hp). reflexivity.
Qed.

(** ** The statements at concrete worlds *)

Example atoi_numeral : atoi (lit "42") = 42.
Proof. reflexivity. Qed.

Example atoi_negative : atoi (lit "-1") = -1.
Proof. reflexivity. Qed.

Example atoi_letters : atoi (lit "abc") = 0.
Proof. reflexivity. Qed.

Example atoi_prefix : atoi (lit "  +7 up") = 7.
Proof. reflexivity. Qed.

Example query_scenario :
  mute (cooperative "/run/user/1000" "1")
       {| req_role := Some (lit "default"); req_value := None |} =
    Some (afb_req_success [("mute"%string, 1)],
          [EvSocket 3;
           EvConnect 3 (lit "/run/user/1000/pipewire-media-session") 0;
           EvWrite 3 (lit "mute default -1") 15;
           EvRead 3 10 1;
           EvClose 3]).
Proof. reflexivity. Qed.

Ltac evaluate :=
  repeat split;
  first [ reflexivity
        | apply Forall_nil
        | discriminate
        | vm_compute; discriminate
        | unfold path_fits; vm_compute; lia ].

Lemma terminator_outside_witness :
  let w := cooperative "/run/user/1000" "1234567890" in
  let command := lit "volume default -1" in
  (connects w (lit "/run/user/1000") /\
   wrote w command 17 [EvWrite 3 command 17] /\
   reads w [] (lit "1234567890") [] /\
   (0 < length (reply_array w) <= length (lit "1234567890"))%nat) /\
  exists o,
    session_comm w command (reply_array w) = Some o /\
    ret o = 0 /\
    reply_mem o = lit "1234567890" /\
    In (EvRead 3 10 10) (trace o) /\
    In (EvStoreOutside 10 10) (trace o).
Proof.
  intros w command.
  assert (Hc : connects w (lit "/run/user/1000")) by evaluate.
  assert (Hw : wrote w command 17 [EvWrite 3 command 17]) by evaluate.
  assert (Hr : reads w [] (lit "1234567890") []) by evaluate.
  assert (Hl : (0 < length (reply_array w) <= length (lit "1234567890"))%nat)
    by (vm_compute; lia).
  split; [exact (conj Hc (conj Hw (conj Hr Hl)))|].
  exact (terminator_outside_when_reply_fills_buffer
           w _ command (reply_array w) 17 _ [] _ [] Hc Hw Hr Hl).
Defined.

Lemma session_comm_closes_once_witness :
  let w := cooperative "/run/user/1000" "" in
  let command := lit "volume default 42" in
  (xdg_runtime_dir w = Some (lit "/run/user/1000") /\ 0 <= socket_ret w) /\
  exists o,
    session_comm w command (reply_array w) = Some o /\
    ret o = -1 /\
    closed (trace o) = [3].
Proof.
  intros w command.
  assert (Hs : 0 <= socket_ret w) by (vm_compute; discriminate).
  split; [split; [reflexivity | exact Hs]|].
  destruct (session_comm_closes_once w (lit "/run/user/1000") command
              (reply_array w) eq_refl Hs) as [_ H].
  eexists. split; [vm_compute; reflexivity|]. split; [reflexivity|].
  exact (proj1 (H _ eq_refl)).
Defined.

Lemma write_step_witness :
  let w := {| xdg_runtime_dir := Some (lit "/run/user/1000");
              socket_ret := 3;
              connect_ret := 0;
              write_script := [WriteErr EAGAIN; WriteErr EINTR; WriteOk 5];
              read_script := [ReadOk (lit "42")];
              stack := fun _ => "?"%char |} in
  let command := lit "volume default 42" in
  (connects w (lit "/run/user/1000") /\
   write_script w = map WriteErr [EAGAIN; EINTR] ++ WriteOk 5 :: [] /\
   interrupted [EAGAIN; EINTR] /\
   (0 < Nat.min 5 (length command))%nat /\
   read_script w = map ReadErr [] ++ ReadOk (lit "42") :: [] /\
   interrupted [] /\
   received (reply_array w) (lit "42") <> []) /\
  exists o,
    session_comm w command (reply_array w) = Some o /\
    ret o = 0 /\
    diagnostics (trace o) = [] /\
    sent (trace o) = lit "volum" /\
    offered (trace o) = [command; command; command].
Proof.
  intros w command.
  assert (Hc : connects w (lit "/run/user/1000")) by evaluate.
  assert (Hi : interrupted [EAGAIN; EINTR])
    by (repeat constructor; auto).
  assert (Hpos : (0 < Nat.min 5 (length command))%nat) by (vm_compute; lia).
  assert (Hi' : interrupted []) by constructor.
  assert (Hg : received (reply_array w) (lit "42") <> []) by discriminate.
  split;
    [exact (conj Hc (conj eq_refl (conj Hi (conj Hpos
              (conj eq_refl (conj Hi' Hg))))))|].
  destruct (write_step w (lit "/run/user/1000") command (reply_array w)
              [EAGAIN; EINTR] (WriteOk 5) [] Hc eq_refl Hi)
    as (_ & _ & _ & H & _).
  destruct (H Hpos [] (lit "42") [] eq_refl Hi' Hg)
    as (o & Ho & Hret & Hd & Hsent).
  exists o. split; [exact Ho|]. split; [exact Hret|].
  split; [exact Hd|]. split; [exact Hsent|].
  assert (E : Some o =
              session_comm w command (reply_array w)) by (symmetry; exact Ho).
  vm_compute in E. injection E as ->. reflexivity.
Defined.

Lemma failures_at_the_boundary_witness :
  let request := {| req_role := Some (lit "default"); req_value := None |} in
  let command := lit "volume default -1" in
  accepted Volume request command /\
  transport_failure unset_runtime_dir command /\
  (exists tr,
     volume unset_runtime_dir request =
       Some (afb_req_fail "failed" "media-session communication failed", tr)) /\
  (exists tr,
     volume (cooperative "/run/user/1000" "-1") request =
       Some (afb_req_fail "failed" "media-session replied -1", tr)).
Proof.
  intros request command.
  assert (Ha : accepted Volume request command) by reflexivity.
  assert (Hf : transport_failure unset_runtime_dir command)
    by (apply NoRuntimeDir; reflexivity).
  split; [exact Ha|]. split; [exact Hf|]. split.
  - exact (proj1 (failures_at_the_boundary Volume unset_runtime_dir request
                    command Ha) Hf).
  - destruct (failures_at_the_boundary Volume
                (cooperative "/run/user/1000" "-1") request command Ha)
      as (_ & _ & H & _).
    eexists. apply (H _ eq_refl eq_refl). vm_compute. reflexivity.
Defined.


Lemma address_length_check_witness :
  let command := lit "volume default 42" in
  let long := cooperative_in dir85 (lit "42") in
  let exact_fit := cooperative_in dir84 (lit "42") in
  (xdg_runtime_dir long = Some dir85 /\
   (108 < length (dir85 ++ lit "/" ++ NAME) + 1)%nat /\
   xdg_runtime_dir exact_fit = Some dir84 /\
   (length (dir84 ++ lit "/" ++ NAME) + 1 = 108)%nat /\
   0 <= socket_ret exact_fit) /\
  (exists o,
     session_comm long command (reply_array long) = Some o /\
     ret o = -1 /\
     trace o = [EvSocket 3; EvStderr (msg_too_long dir85); EvClose 3]) /\
  (forall o,
     session_comm exact_fit command (reply_array exact_fit) = Some o ->
     exists tr,
       trace o =
         EvSocket 3 :: EvConnect 3 (dir84 ++ lit "/" ++ NAME) 0 :: tr).
Proof.
  intros command long exact_fit.
  assert (Hlong : (108 < length (dir85 ++ lit "/" ++ NAME) + 1)%nat)
    by (vm_compute; lia).
  assert (Hfit : (length (dir84 ++ lit "/" ++ NAME) + 1 <= 108)%nat)
    by (vm_compute; lia).
  assert (Hs : 0 <= socket_ret exact_fit) by (vm_compute; discriminate).
  split; [exact (conj eq_refl (conj Hlong (conj eq_refl (conj eq_refl Hs))))|].
  split.
  - destruct (proj1 (address_length_check long dir85 command
                       (reply_array long) eq_refl) Hlong)
      as (o & Ho & Hret & _ & Htr).
    exists o. split; [exact Ho|]. split; [exact Hret|].
    apply Htr. vm_compute. discriminate.
  - exact (proj2 (proj2 (address_length_check exact_fit dir84 command
                           (reply_array exact_fit) eq_refl) Hfit Hs)).
Defined.

Lemma read_step_witness :
  let w := {| xdg_runtime_dir := Some (lit "/run/user/1000");
              socket_ret := 3;
              connect_ret := 0;
              write_script := [WriteOk 4096];
              read_script := [ReadErr EAGAIN; ReadErr EINTR; ReadOk []];
              stack := fun _ => "?"%char |} in
  let command := lit "volume default 42" in
  (connects w (lit "/run/user/1000") /\
   wrote w command 17 [EvWrite 3 command 17] /\
   read_script w = map ReadErr [EAGAIN; EINTR] ++ ReadOk [] :: [] /\
   interrupted [EAGAIN; EINTR] /\
   received (reply_array w) [] = []) /\
  session_comm w command (reply_array w) =
    Some (Outcome (-1) (reply_array w)
            [EvSocket 3;
             EvConnect 3 (lit "/run/user/1000/pipewire-media-session") 0;
             EvWrite 3 command 17;
             EvRead 3 10 (-1);
             EvRead 3 10 (-1);
             EvRead 3 10 0;
             EvStderr (lit "EOF");
             EvClose 3]).
Proof.
  intros w command.
  assert (Hc : connects w (lit "/run/user/1000")) by evaluate.
  assert (Hw : wrote w command 17 [EvWrite 3 command 17]) by evaluate.
  assert (Hi : interrupted [EAGAIN; EINTR])
    by (repeat constructor; auto).
  split; [exact (conj Hc (conj Hw (conj eq_refl (conj Hi eq_refl))))|].
  exact (proj1 (read_step w _ command (reply_array w) 17 _ [EAGAIN; EINTR]
                  (ReadOk []) [] Hc Hw eq_refl Hi) eq_refl).
Defined.

Lemma command_format_witness :
  let w := cooperative "/run/user/1000" "42" in
  let request := {| req_role := Some (lit "default");
                    req_value := Some (lit "42") |} in
  (req_value request = Some (lit "42") /\
   0 <= atoi (lit "42") <= verb_max Volume) /\
  volume w request = exchange Volume w (lit "volume default 42").
Proof.
  intros w request.
  assert (E : atoi (lit "42") = 42) by reflexivity.
  assert (H : 0 <= atoi (lit "42") <= verb_max Volume)
    by (rewrite E; simpl; lia).
  split; [split; [reflexivity | exact H]|].
  exact (proj1 (proj2 (command_format Volume w request)) (lit "42")
           eq_refl H).
Defined.

Lemma value_parsing_to_zero_witness :
  let w := cooperative "/run/user/1000" "0" in
  let request := {| req_role := Some (lit "default");
                    req_value := Some (lit "abc") |} in
  (req_value request = Some (lit "abc") /\ atoi (lit "abc") = 0) /\
  zone w request = exchange Zone w (lit "zone default 0") /\
  lit "zone default 0" <> lit "zone default -1".
Proof.
  intros w request.
  split; [split; reflexivity|].
  destruct (value_parsing_to_zero_is_a_set Zone w request (lit "abc")
              eq_refl eq_refl) as (H1 & _ & _ & H2).
  split; [exact H1|].
  apply H2. vm_compute. lia.
Defined.

Lemma reply_parsed_with_atoi_witness :
  let w := cooperative "/run/user/1000" "ok" in
  let request := {| req_role := Some (lit "default"); req_value := None |} in
  let command := lit "volume default -1" in
  (accepted Volume request command /\
   connects w (lit "/run/user/1000") /\
   wrote w command 17 [EvWrite 3 command 17] /\
   reads w [] (lit "ok") [] /\
   lit "ok" <> []) /\
  exists tr,
    volume w request = Some (afb_req_success [("volume"%string, 0)], tr).
Proof.
  intros w request command.
  assert (Ha : accepted Volume request command) by reflexivity.
  assert (Hc : connects w (lit "/run/user/1000")) by evaluate.
  assert (Hw : wrote w command 17 [EvWrite 3 command 17]) by evaluate.
  assert (Hr : reads w [] (lit "ok") []) by evaluate.
  assert (Hd : lit "ok" <> []) by discriminate.
  split; [exact (conj Ha (conj Hc (conj Hw (conj Hr Hd))))|].
  exact (proj1 (reply_parsed_with_atoi Volume w request _ command 17 _ []
                  (lit "ok") [] Ha Hc Hw Hr Hd)).
Defined.

(** * Further properties of the code *)

(** ** The exit paths, as one relation *)

Lemma session_comm_exit (w : World) (command : cstring) (reply : list ascii)
    (o : outcome) :
  session_comm w command reply = Some o <-> exit_path w command reply o.
Proof.
  split.
  - destruct (world_cases w) as [H|(d & Hd & [H|(Hs & [H|(Hp & [H|H])])])].
    + rewrite path_no_runtime_dir by assumption.
      intros ->%some_eq. now constructor.
    + rewrite (path_socket_failed w d) by assumption.
      intros ->%some_eq. now apply (ExitSocket _ _ _ d).
    + rewrite (path_too_long w d) by assumption.
      intros ->%some_eq. now apply ExitTooLong.
    + rewrite (path_connect_failed w d) by assumption.
      intros ->%some_eq. now apply ExitConnect.
    + assert (Hc : connects w d) by (repeat split; assumption).
      rewrite (path_connected _ _ _ _ Hc). cbv zeta.
      destruct (write_loop _ command _) as [[r wevs]|] eqn:Hw;
        [|discriminate].
      destruct (Z.eqb_spec r 0) as [->|Hr0].
      { intros ->%some_eq. now apply ExitWrite. }
      destruct (read_loop _ reply _) as [[[r' reply'] revs]|] eqn:Hr;
        [|discriminate].
      destruct (Z.eqb_spec r' 0) as [->|Hr'0]; intros ->%some_eq.
      * now apply (ExitRead _ _ _ d r).
      * now apply (ExitSuccess _ _ _ d r).
  - intros [H|d H1 H2|d H1 H2 H3|d H1 H2 H3 H4|d wevs Hc Hw
            |d r wevs reply' revs Hc (Hw & Hr0) Hr
            |d r wevs r' reply' revs Hc (Hw & Hr0) Hr Hr'0].
    + now apply path_no_runtime_dir.
    + now apply (path_socket_failed w d).
    + now apply path_too_long.
    + now apply path_connect_failed.
    + rewrite (path_connected _ _ _ _ Hc). cbv zeta. rewrite Hw.
      reflexivity.
    + rewrite (path_connected _ _ _ _ Hc). cbv zeta. rewrite Hw.
      destruct (Z.eqb_spec r 0); [contradiction|]. rewrite Hr. reflexivity.
    + rewrite (path_connected _ _ _ _ Hc). cbv zeta. rewrite Hw.
      destruct (Z.eqb_spec r 0); [contradiction|]. rewrite Hr.
      destruct (Z.eqb_spec r' 0); [contradiction | reflexivity].
Qed.

(** ** More on the loops *)

Lemma read_counts_app (a b : list event) :
  read_counts (a ++ b) = read_counts a ++ read_counts b.
Proof. apply flat_map_app. Qed.

Lemma sockets_in_app (a b : list event) :
  sockets_in (a ++ b) = sockets_in a ++ sockets_in b.
Proof. apply filter_app. Qed.

Lemma printed_app (a b : list event) :
  printed (a ++ b) = printed a ++ printed b.
Proof. apply flat_map_app. Qed.

Lemma length_store (buf : list ascii) (i : nat) (c : ascii) :
  length (store buf i c) = length buf.
Proof.
  unfold store. destruct (Nat.ltb_spec i (length buf)); [|reflexivity].
  rewrite length_app, length_firstn. cbn [length]. rewrite length_skipn.
  lia.
Qed.

Section MoreLoops.

Variable fd : Z.

(** The write loop makes [write] calls only, all on [fd] and all given
    the command. *)
Lemma write_loop_calls (command : cstring) (count : nat)
    (script : list write_result) (r : Z) (evs : list event) :
  write_loop fd command script = Some (r, evs) ->
  Forall (call_on fd command count) evs /\
  read_counts evs = [] /\
  sockets_in evs = [] /\
  connects_in evs = [] /\
  printed evs = [].
Proof.
  revert r evs.
  induction script as [|res rest IH]; intros r evs; simpl; [discriminate|].
  destruct res as [e|room]; simpl.
  - destruct (transient e).
    + destruct (write_loop fd command rest) as [[r' evs']|]; [|discriminate].
      intros [= <- <-]. destruct (IH _ _ eq_refl) as (Hf & Hr & Hs & Hc & Hp).
      repeat split; try assumption.
      constructor; [|assumption]. cbn. repeat split; lia.
    + intros [= <- <-]. repeat split.
      repeat constructor; lia.
  - destruct (Z.ltb_spec (Z.of_nat (Nat.min room (length command))) 0);
      [lia|].
    intros [= <- <-]. repeat split.
    repeat constructor; lia.
Qed.

(** The read loop makes [read] calls only, all on [fd] and for the whole
    buffer; none returns more than the last, whose count is [r]. *)
Lemma read_loop_calls (command : cstring) (reply : list ascii)
    (script : list read_result) (r : Z) (buf : list ascii)
    (evs : list event) :
  read_loop fd reply script = Some (r, buf, evs) ->
  Forall (call_on fd command (length reply)) evs /\
  Forall (fun c => c <= r) (read_counts evs) /\
  (r <> 0 -> In r (read_counts evs)) /\
  sockets_in evs = [] /\
  connects_in evs = [] /\
  printed evs = [].
Proof.
  revert r buf evs.
  induction script as [|res rest IH]; intros r buf evs; simpl;
    [discriminate|].
  destruct res as [e|data]; simpl.
  - destruct (transient e).
    + destruct (read_loop fd reply rest) as [[[r' buf'] evs']|] eqn:Hl;
        [|discriminate].
      intros [= <- <- <-].
      destruct (IH _ _ _ eq_refl) as (Hf & Hle & Hin & Hs & Hc & Hp).
      destruct (read_loop_spec _ _ _ _ _ _ Hl) as (Hr & _).
      repeat split; try assumption.
      * constructor; [|assumption]. cbn. repeat split; try lia.
      * cbn. constructor; [lia | assumption].
      * intros H. cbn. right. now apply Hin.
    + intros [= <- <- <-]. repeat split.
      * repeat constructor; lia.
      * repeat constructor; lia.
      * congruence.
  - pose proof (firstn_le_length (length reply) data) as Hle.
    destruct (Z.ltb_spec
                (Z.of_nat (length (firstn (length reply) data))) 0); [lia|].
    intros [= <- <- <-]. repeat split.
    + repeat constructor; lia.
    + repeat constructor. lia.
    + intros _. now left.
Qed.

(** A read loop that ends with a count of zero has left the buffer as it
    was. *)
Lemma read_loop_zero (reply : list ascii) (script : list read_result)
    (buf : list ascii) (evs : list event) :
  read_loop fd reply script = Some (0, buf, evs) -> buf = reply.
Proof.
  revert buf evs.
  induction script as [|res rest IH]; intros buf evs; simpl; [discriminate|].
  destruct res as [e|data]; simpl.
  - destruct (transient e).
    + destruct (read_loop fd reply rest) as [[[r' buf'] evs']|] eqn:Hl;
        [|discriminate].
      intros [= -> <- <-]. now apply (IH _ _ eq_refl).
    + now intros [= <- <-].
  - destruct (Z.ltb_spec
                (Z.of_nat (length (firstn (length reply) data))) 0); [lia|].
    intros [= H0 <- <-].
    destruct (firstn (length reply) data); [reflexivity | discriminate].
Qed.

(** The loops go on exactly as long as the answers are transient
    errors. *)
Lemma write_loop_stuck (command : cstring) (script : list write_result) :
  write_loop fd command script = None <-> only_transient_writes script.
Proof.
  induction script as [|res rest IH]; simpl.
  - split; [constructor | reflexivity].
  - destruct res as [e|room]; simpl.
    + destruct (transient e) eqn:He.
      * destruct (write_loop fd command rest) as [[r evs]|].
        -- split; [discriminate|]. intros H. inversion H as [|? ? _ Hrest].
           apply IH in Hrest. discriminate.
        -- split; [|reflexivity]. intros _. constructor; [assumption|].
           now apply IH.
      * split; [discriminate|]. intros H. inversion H; subst. congruence.
    + destruct (_ <? 0); (split; [discriminate|]);
        intros H; inversion H; subst; contradiction.
Qed.

Lemma read_loop_stuck (reply : list ascii) (script : list read_result) :
  read_loop fd reply script = None <-> only_transient_reads script.
Proof.
  induction script as [|res rest IH]; simpl.
  - split; [constructor | reflexivity].
  - destruct res as [e|data]; simpl.
    + destruct (transient e) eqn:He.
      * destruct (read_loop fd reply rest) as [[[r buf] evs]|].
        -- split; [discriminate|]. intros H. inversion H as [|? ? _ Hrest].
           apply IH in Hrest. discriminate.
        -- split; [|reflexivity]. intros _. constructor; [assumption|].
           now apply IH.
      * split; [discriminate|]. intros H. inversion H; subst. congruence.
    + destruct (_ <? 0); (split; [discriminate|]);
        intros H; inversion H; subst; contradiction.
Qed.

End MoreLoops.

(** ** What every call of session_comm keeps *)

Lemma store_events_quiet (buf : list ascii) (i : nat) :
  read_counts (store_events buf i) = [] /\
  sockets_in (store_events buf i) = [] /\
  connects_in (store_events buf i) = [] /\
  printed (store_events buf i) = [] /\
  forall fd command count,
    Forall (call_on fd command count) (store_events buf i).
Proof.
  unfold store_events. destruct (i <? length buf)%nat;
    repeat split; repeat constructor.
Qed.

(** X1. Without a descriptor nothing is done with one.  When
    XDG_RUNTIME_DIR is not set, or when [socket] fails, [session_comm]
    returns -1 with the reply buffer as it was and without any [connect],
    [write], [read] or [close]; when the variable is not set not even
    [socket] is called, and the one message printed says so. *)
Theorem nothing_done_without_a_descriptor (w : World) (command : cstring)
    (reply : list ascii) :
  xdg_runtime_dir w = None \/ socket_ret w < 0 ->
  exists o,
    session_comm w command reply = Some o /\
    ret o = -1 /\
    reply_mem o = reply /\
    connects_in (trace o) = [] /\
    offered (trace o) = [] /\
    read_counts (trace o) = [] /\
    closed (trace o) = [] /\
    (xdg_runtime_dir w = None ->
     sockets_in (trace o) = [] /\ printed (trace o) = [msg_no_runtime_dir]).
Proof.
  intros H. destruct (xdg_runtime_dir w) as [d|] eqn:Hd.
  - destruct H as [H|H]; [discriminate|].
    rewrite (path_socket_failed w d) by assumption.
    eexists. split; [reflexivity|]. cbn. repeat split; discriminate.
  - rewrite path_no_runtime_dir by assumption.
    eexists. split; [reflexivity|]. cbn. repeat split.
Qed.

(** X2. [session_comm] returns 0 or -1 and nothing else, and it returns 0
    exactly when one of its [read] calls returned a positive count. *)
Theorem return_value_tells_whether_bytes_were_read (w : World)
    (command : cstring) (reply : list ascii) (o : outcome) :
  session_comm w command reply = Some o ->
  (ret o = 0 \/ ret o = -1) /\
  (ret o = 0 <-> exists r, In r (read_counts (trace o)) /\ 0 < r).
Proof.
  intros H%session_comm_exit.
  destruct H as [H|d H1 H2|d H1 H2 H3|d H1 H2 H3 H4|d wevs Hc Hw
                 |d r wevs reply' revs Hc (Hw & Hr0) Hr
                 |d r wevs r' reply' revs Hc (Hw & Hr0) Hr Hr'0];
    cbn [ret trace]; (split; [auto|]).
  1-4: split; [discriminate | intros (r & [] & _)]; try discriminate;
       intuition discriminate.
  - split; [discriminate|]. intros (c & Hin & Hpos). exfalso.
    destruct (write_loop_calls _ _ 0%nat _ _ _ Hw) as (_ & Hrc & _).
    rewrite !read_counts_app, Hrc in Hin. cbn in Hin. exact Hin.
  - split; [discriminate|]. intros (c & Hin & Hpos). exfalso.
    destruct (write_loop_calls _ _ 0%nat _ _ _ Hw) as (_ & Hrc & _).
    destruct (read_loop_calls _ command _ _ _ _ _ Hr) as (_ & Hle & _).
    rewrite !read_counts_app, Hrc in Hin. cbn in Hin.
    rewrite app_nil_r in Hin. rewrite Forall_forall in Hle.
    specialize (Hle _ Hin). lia.
  - split; [intros _ | reflexivity].
    destruct (read_loop_calls _ command _ _ _ _ _ Hr) as (_ & _ & Hin & _).
    destruct (read_loop_spec _ _ _ _ _ _ Hr) as (Hr' & _).
    exists r'. split; [|lia].
    rewrite !read_counts_app, !in_app_iff. right. right. left.
    now apply Hin.
Qed.

(** X3. The reply buffer keeps its size through every call, and a call
    that returns -1 leaves its bytes as they were. *)
Theorem failure_leaves_reply_untouched (w : World) (command : cstring)
    (reply : list ascii) (o : outcome) :
  session_comm w command reply = Some o ->
  length (reply_mem o) = length reply /\
  (ret o = -1 -> reply_mem o = reply).
Proof.
  intros H%session_comm_exit.
  destruct H as [H|d H1 H2|d H1 H2 H3|d H1 H2 H3 H4|d wevs Hc Hw
                 |d r wevs reply' revs Hc (Hw & Hr0) Hr
                 |d r wevs r' reply' revs Hc (Hw & Hr0) Hr Hr'0];
    cbn [ret reply_mem]; try (split; reflexivity).
  - rewrite (read_loop_zero _ _ _ _ _ Hr). split; reflexivity.
  - destruct (read_loop_spec _ _ _ _ _ _ Hr) as (_ & Hl & _).
    rewrite length_store. split; [exact Hl | discriminate].
Qed.

(** X4. No [read] without bytes sent.  Whenever the trace of a call holds
    a [read], bytes of the command went out before: the trace splits into
    a part without any [read], which holds all that was sent, and a part
    without any [write]. *)
Theorem reads_only_after_bytes_were_sent (w : World) (command : cstring)
    (reply : list ascii) (o : outcome) :
  session_comm w command reply = Some o ->
  read_counts (trace o) <> [] ->
  sent (trace o) <> [] /\
  exists before after,
    trace o = before ++ after /\
    read_counts before = [] /\
    sent before = sent (trace o) /\
    offered after = [].
Proof.
  intros H%session_comm_exit.
  assert (Hsent : forall r wevs,
             wrote w command r wevs -> sent wevs <> []).
  { intros r wevs (Hw & Hr0).
    destruct (write_loop_spec _ _ _ _ _ Hw) as (Hr & _ & ->).
    unfold transmitted.
    destruct command as [|c t]; [cbn in Hr; lia|].
    destruct (Z.to_nat r) eqn:E; [lia | discriminate]. }
  destruct H as [H|d H1 H2|d H1 H2 H3|d H1 H2 H3 H4|d wevs Hc Hw
                 |d r wevs reply' revs Hc Hw Hr
                 |d r wevs r' reply' revs Hc Hw Hr Hr'0];
    cbn [trace]; intros Hreads; try (exfalso; apply Hreads; reflexivity).
  - exfalso. apply Hreads.
    destruct (write_loop_calls _ _ 0%nat _ _ _ Hw) as (_ & Hrc & _).
    rewrite !read_counts_app, Hrc. reflexivity.
  - destruct (write_loop_calls _ _ 0%nat _ _ _ (proj1 Hw)) as (_ & Hrc & _).
    destruct (read_loop_spec _ _ _ _ _ _ Hr) as (_ & _ & _ & Hsr).
    pose proof (read_loop_offered _ _ _ _ _ _ Hr) as Hor.
    pose proof (Hsent _ _ Hw) as Hne.
    assert (E : sent (opened w d ++ wevs ++ revs
                        ++ [EvStderr msg_eof; EvClose (socket_ret w)])
                = sent wevs).
    { rewrite !sent_app, Hsr. cbn. now rewrite app_nil_r. }
    rewrite E. split; [exact Hne|].
    exists (opened w d ++ wevs),
      (revs ++ [EvStderr msg_eof; EvClose (socket_ret w)]).
    rewrite <- !app_assoc. split; [reflexivity|].
    rewrite read_counts_app, sent_app, offered_app, Hrc, Hor.
    repeat split.
  - destruct (write_loop_calls _ _ 0%nat _ _ _ (proj1 Hw)) as (_ & Hrc & _).
    destruct (read_loop_spec _ _ _ _ _ _ Hr) as (_ & _ & _ & Hsr).
    pose proof (read_loop_offered _ _ _ _ _ _ Hr) as Hor.
    pose proof (Hsent _ _ Hw) as Hne.
    assert (E : sent (opened w d ++ wevs ++ revs
                        ++ store_events reply' (Z.to_nat r')
                        ++ [EvClose (socket_ret w)])
                = sent wevs).
    { rewrite !sent_app, Hsr, sent_store_events. cbn.
      now rewrite app_nil_r. }
    rewrite E. split; [exact Hne|].
    exists (opened w d ++ wevs),
      (revs ++ store_events reply' (Z.to_nat r')
         ++ [EvClose (socket_ret w)]).
    rewrite <- !app_assoc. split; [reflexivity|].
    rewrite read_counts_app, sent_app, !offered_app, Hrc, Hor,
      offered_store_events.
    repeat split.
Qed.

(** X5. One descriptor per call.  Every [connect], [write], [read] and
    [close] of a call is made on the descriptor [socket] returned; every
    [write] is given the command and returns no more than its length,
    every [read] asks for [reply_size] bytes and returns no more than
    that; and a call makes at most one [socket], one [connect] and one
    [close]. *)
Theorem one_descriptor_per_call (w : World) (command : cstring)
    (reply : list ascii) (o : outcome) :
  session_comm w command reply = Some o ->
  Forall (call_on (socket_ret w) command (length reply)) (trace o) /\
  (length (sockets_in (trace o)) <= 1)%nat /\
  (length (connects_in (trace o)) <= 1)%nat /\
  (length (closed (trace o)) <= 1)%nat.
Proof.
  intros H%session_comm_exit.
  destruct H as [H|d H1 H2|d H1 H2 H3|d H1 H2 H3 H4|d wevs Hc Hw
                 |d r wevs reply' revs Hc (Hw & Hr0) Hr
                 |d r wevs r' reply' revs Hc (Hw & Hr0) Hr Hr'0];
    cbn [trace].
  1-4: cbn; repeat split; repeat constructor; lia.
  - destruct (write_loop_calls _ _ (length reply) _ _ _ Hw)
      as (Hf & _ & Hs & Hn & _).
    destruct (write_loop_spec _ _ _ _ _ Hw) as (_ & Hcl & _).
    rewrite !sockets_in_app, !connects_in_app, !closed_app, Hs, Hn, Hcl.
    repeat split; [|cbn; lia..].
    repeat (apply Forall_app; split); [| exact Hf |];
      repeat constructor.
  - destruct (write_loop_calls _ _ (length reply) _ _ _ Hw)
      as (Hf & _ & Hs & Hn & _).
    destruct (write_loop_spec _ _ _ _ _ Hw) as (_ & Hcl & _).
    destruct (read_loop_calls _ command _ _ _ _ _ Hr)
      as (Hfr & _ & _ & Hsr & Hnr & _).
    destruct (read_loop_spec _ _ _ _ _ _ Hr) as (_ & _ & Hclr & _).
    rewrite !sockets_in_app, !connects_in_app, !closed_app, Hs, Hn, Hcl,
      Hsr, Hnr, Hclr.
    repeat split; [|cbn; lia..].
    repeat (apply Forall_app; split); [| exact Hf | exact Hfr |];
      repeat constructor.
  - destruct (write_loop_calls _ _ (length reply) _ _ _ Hw)
      as (Hf & _ & Hs & Hn & _).
    destruct (write_loop_spec _ _ _ _ _ Hw) as (_ & Hcl & _).
    destruct (read_loop_calls _ command _ _ _ _ _ Hr)
      as (Hfr & _ & _ & Hsr & Hnr & _).
    destruct (read_loop_spec _ _ _ _ _ _ Hr) as (_ & _ & Hclr & _).
    destruct (store_events_quiet reply' (Z.to_nat r'))
      as (_ & Hss & Hns & _ & Hfs).
    rewrite !sockets_in_app, !connects_in_app, !closed_app, Hs, Hn, Hcl,
      Hsr, Hnr, Hclr, Hss, Hns, closed_store_events.
    repeat split; [|cbn; lia..].
    repeat (apply Forall_app; split);
      [| exact Hf | exact Hfr | apply Hfs |]; repeat constructor.
Qed.

(** X6. A [read] error other than EAGAIN and EINTR ends the call like an
    end of file: after [perror("read")] the message "EOF" is printed, the
    socket is closed, -1 is returned and the reply buffer is as it
    was. *)
Theorem read_error_reported_as_eof (w : World)
    (runtime_dir command : cstring) (reply : list ascii) (r : Z)
    (wevs : list event) (es : list Z) (e : Z) (rest : list read_result) :
  connects w runtime_dir ->
  wrote w command r wevs ->
  read_script w = map ReadErr es ++ ReadErr e :: rest ->
  all_transient es ->
  transient e = false ->
  exists o before,
    session_comm w command reply = Some o /\
    ret o = -1 /\
    reply_mem o = reply /\
    trace o =
      before ++ [EvRead (socket_ret w) (length reply) (-1); EvPerror "read";
                 EvStderr msg_eof; EvClose (socket_ret w)] /\
    printed before = [] /\
    closed before = [] /\
    length (read_counts before) = length es.
Proof.
  intros Hc Hw Hs Ht He.
  rewrite (path_read_failed _ _ _ _ Hc _ _ _ _ _ Hw Hs Ht He).
  eexists.
  exists (opened w runtime_dir ++ wevs
            ++ retried_reads (socket_ret w) (length reply) es).
  split; [reflexivity|]. cbn [ret reply_mem trace].
  split; [reflexivity|]. split; [reflexivity|].
  split; [now rewrite <- !app_assoc|].
  destruct (write_loop_calls _ _ 0%nat _ _ _ (proj1 Hw))
    as (_ & Hrc & _ & _ & Hp).
  destruct (write_loop_spec _ _ _ _ _ (proj1 Hw)) as (_ & Hcl & _).
  rewrite !printed_app, !closed_app, !read_counts_app, Hp, Hcl, Hrc.
  unfold retried_reads. cbn.
  clear. induction es as [|a es IH]; [repeat split|].
  destruct IH as (IH1 & IH2 & IH3). cbn. repeat split; auto.
Qed.

(** X7. An exchange with nothing to send or with no room for a reply
    never succeeds: with an empty command, or with a reply buffer of size
    zero, every return of [session_comm] is -1. *)
Theorem empty_exchange_never_succeeds (w : World) (command : cstring)
    (reply : list ascii) (o : outcome) :
  command = [] \/ reply = [] ->
  session_comm w command reply = Some o ->
  ret o = -1.
Proof.
  intros Hempty H%session_comm_exit.
  destruct H as [H|d H1 H2|d H1 H2 H3|d H1 H2 H3 H4|d wevs Hc Hw
                 |d r wevs reply' revs Hc (Hw & Hr0) Hr
                 |d r wevs r' reply' revs Hc (Hw & Hr0) Hr Hr'0];
    try reflexivity.
  exfalso.
  destruct (write_loop_spec _ _ _ _ _ Hw) as (Hrw & _).
  destruct (read_loop_spec _ _ _ _ _ _ Hr) as (Hrr & _).
  destruct Hempty as [-> | ->]; cbn in *; lia.
Qed.

(** X8. Only an endless run of transient errors keeps [session_comm] from
    returning: the call is still in a loop at the end of the scripts
    exactly when it got as far as a connected socket and either the
    answers of [write] are all EAGAIN or EINTR, or the write went through
    and the answers of [read] are all EAGAIN or EINTR.  There is no bound
    on the number of retries. *)
Theorem only_transient_errors_keep_the_call_going (w : World)
    (command : cstring) (reply : list ascii) :
  session_comm w command reply = None <->
  exists runtime_dir,
    connects w runtime_dir /\
    (only_transient_writes (write_script w) \/
     (exists r wevs, wrote w command r wevs) /\
     only_transient_reads (read_script w)).
Proof.
  split.
  - destruct (world_cases w) as [H|(d & Hd & [H|(Hs & [H|(Hp & [H|H])])])].
    + now rewrite path_no_runtime_dir.
    + now rewrite (path_socket_failed w d).
    + now rewrite (path_too_long w d).
    + now rewrite (path_connect_failed w d).
    + assert (Hc : connects w d) by (repeat split; assumption).
      rewrite (path_connected _ _ _ _ Hc). cbv zeta. intros Hnone.
      exists d. split; [exact Hc|].
      destruct (write_loop _ command _) as [[r wevs]|] eqn:Hw.
      * right. destruct (Z.eqb_spec r 0) as [->|Hr0]; [discriminate|].
        split; [exists r, wevs; split; assumption|].
        destruct (read_loop _ reply _) as [[[r' reply'] revs]|] eqn:Hr.
        -- destruct (r' =? 0); discriminate.
        -- now apply (read_loop_stuck (socket_ret w) reply).
      * left. now apply (write_loop_stuck (socket_ret w) command).
  - intros (d & Hc & [Hw|[(r & wevs & Hw & Hr0) Hr]]);
      rewrite (path_connected _ _ _ _ Hc); cbv zeta.
    + apply (write_loop_stuck (socket_ret w) command) in Hw.
      now rewrite Hw.
    + rewrite Hw. destruct (Z.eqb_spec r 0); [contradiction|].
      apply (read_loop_stuck (socket_ret w) reply) in Hr. now rewrite Hr.
Qed.

(** ** Decimal text and atoi *)

Ltac eval_code :=
  repeat match goal with
         | |- context [code ?c] =>
             let v := eval vm_compute in (code c) in
             change (code c) with v
         end.

Lemma digits_of_uint_acc (d : Decimal.uint) (acc : positive) :
  digits (lit (NilEmpty.string_of_uint d)) (Z.pos acc) =
  Z.pos (Pos.of_uint_acc d acc).
Proof.
  revert acc. induction d as [|d IH|d IH|d IH|d IH|d IH|d IH|d IH|d IH|d IH
                              |d IH]; intros acc; [reflexivity|..];
    cbn [NilEmpty.string_of_uint lit list_ascii_of_string digits
         Pos.of_uint_acc];
    (replace (isdigit _) with true by reflexivity);
    rewrite <- IH; f_equal; eval_code; lia.
Qed.

Lemma digits_of_uint (d : Decimal.uint) :
  digits (lit (NilEmpty.string_of_uint d)) 0 = Z.of_N (Pos.of_uint d).
Proof.
  induction d as [|d IH|d IH|d IH|d IH|d IH|d IH|d IH|d IH|d IH|d IH];
    [reflexivity|..];
    cbn [NilEmpty.string_of_uint lit list_ascii_of_string digits Pos.of_uint];
    (replace (isdigit _) with true by reflexivity);
    [exact IH|..];
    cbn [Z.of_N]; rewrite <- digits_of_uint_acc; f_equal.
Qed.

Lemma digit_is_no_space_or_sign (c : ascii) :
  isdigit c = true ->
  isspace c = false /\ (c =? "-")%char = false /\ (c =? "+")%char = false.
Proof.
  unfold isdigit, isspace. intros H.
  apply andb_true_iff in H. destruct H as [H1 H2].
  apply Z.leb_le in H1, H2. repeat split.
  - apply orb_false_iff. split; [apply Z.eqb_neq; lia|].
    apply andb_false_iff. right. apply Z.leb_gt. lia.
  - apply Ascii.eqb_neq. intros ->. vm_compute in H1. now apply H1.
  - apply Ascii.eqb_neq. intros ->. vm_compute in H1. now apply H1.
Qed.

(** The text of a decimal numeral without sign begins with a digit. *)
Lemma string_of_uint_head (d : Decimal.uint) :
  exists c t,
    lit (NilZero.string_of_uint d) = c :: t /\ isdigit c = true /\
    digits (c :: t) 0 = Z.of_N (Pos.of_uint d).
Proof.
  destruct d as [|d|d|d|d|d|d|d|d|d|d];
    [exists "0"%char, []; repeat split|..];
    eexists; eexists; (split; [reflexivity|]); (split; [reflexivity|]);
    match goal with
    | |- _ = Z.of_N (Pos.of_uint ?u) => exact (digits_of_uint u)
    end.
Qed.

Lemma in_int_range (x : Z) :
  INT_MIN <= x < 2 ^ 31 ->
  to_int (Z.max LONG_MIN (Z.min LONG_MAX x)) = x.
Proof.
  unfold to_int, INT_MIN, LONG_MIN, LONG_MAX. intros H.
  rewrite Z.min_r, Z.max_r by lia.
  rewrite Z.mod_small by lia. lia.
Qed.

(** What [%d] prints, [atoi] reads back. *)
Lemma atoi_fmt_d (x : Z) :
  INT_MIN <= x < 2 ^ 31 -> atoi (fmt_d x) = x.
Proof.
  intros Hx. rewrite <- (in_int_range x Hx) at 2.
  unfold atoi, strtol, fmt_d. do 3 f_equal.
  rewrite <- (DecimalZ.of_to x) at 2.
  destruct (Z.to_int x) as [d|d];
    cbn [NilZero.string_of_int Z.of_int Z.of_uint].
  - destruct (string_of_uint_head d) as (c & t & -> & Hc & Hd).
    destruct (digit_is_no_space_or_sign c Hc) as (Hs & Hm & Hp).
    cbn [skip_spaces]. rewrite Hs. unfold signed_digits.
    rewrite Hm, Hp. exact Hd.
  - cbn [lit list_ascii_of_string].
    change (list_ascii_of_string (NilZero.string_of_uint d))
      with (lit (NilZero.string_of_uint d)).
    destruct (string_of_uint_head d) as (c & t & -> & Hc & Hd).
    cbn [skip_spaces]. replace (isspace "-") with false by reflexivity.
    cbn [signed_digits]. replace ("-" =? "-")%char with true by reflexivity.
    now rewrite Hd.
Qed.

(** ** What the callbacks answer *)

Lemma to_int_range (x : Z) : INT_MIN <= to_int x < 2 ^ 31.
Proof.
  unfold to_int, INT_MIN.
  pose proof (Z.mod_pos_bound (x - - 2 ^ 31) (2 ^ 32) eq_refl). lia.
Qed.

Lemma session_comm_trace_nonempty (w : World) (command : cstring)
    (reply : list ascii) (o : outcome) :
  session_comm w command reply = Some o -> trace o <> [].
Proof.
  intros H%session_comm_exit. destruct H; discriminate.
Qed.

Lemma exchange_trace_nonempty (v : verb) (w : World) (command : cstring)
    (a : afb_reply) (tr : list event) :
  exchange v w command = Some (a, tr) -> tr <> [].
Proof.
  unfold exchange.
  destruct (session_comm w command (reply_array w)) as [o|] eqn:Ho;
    [|discriminate].
  pose proof (session_comm_trace_nonempty _ _ _ _ Ho) as H.
  destruct (ret o <? 0); [intros [= <- <-]; exact H|].
  destruct (atoi (reply_mem o) <? 0); intros [= <- <-]; exact H.
Qed.

(** The answers of an exchange. *)
Lemma exchange_answers (v : verb) (w : World) (command : cstring)
    (a : afb_reply) (tr : list event) :
  exchange v w command = Some (a, tr) ->
  a = afb_req_fail "failed" msg_comm_failed \/
  a = afb_req_fail "failed" msg_replied \/
  exists x, 0 <= x < 2 ^ 31 /\ a = afb_req_success [(verb_name v, x)].
Proof.
  unfold exchange.
  destruct (session_comm w command (reply_array w)) as [o|]; [|discriminate].
  destruct (ret o <? 0); [intros [= <- <-]; auto|].
  destruct (Z.ltb_spec (atoi (reply_mem o)) 0); intros [= <- <-]; [auto|].
  right. right. exists (atoi (reply_mem o)). split; [|reflexivity].
  pose proof (to_int_range (strtol (reply_mem o))) as Hr.
  unfold atoi in *. lia.
Qed.

(** X9. The command a callback hands to [write] is never empty and never
    longer than 99 bytes, and the cut of [snprintf] never reaches the
    verb: the command always begins with the verb's name and a space. *)
Theorem command_fits_and_keeps_the_verb (v : verb) (w : World)
    (request : afb_req) (a : afb_reply) (tr : list event) (buf : cstring) :
  handler v w request = Some (a, tr) ->
  In buf (offered tr) ->
  (1 <= length buf <= 99)%nat /\
  exists rest, buf = lit (verb_name v) ++ lit " " ++ rest.
Proof.
  rewrite handler_callback. unfold callback.
  destruct (match req_value request with
            | Some _ => _
            | None => false
            end); [intros [= <- <-] []|].
  intros H Hin. pose proof (exchange_offered _ _ _ _ _ H) as Hall.
  rewrite Forall_forall in Hall. rewrite <- (Hall _ Hin).
  rewrite format_command_text. unfold command_text.
  set (rest := fmt_s (req_role request) ++ lit " " ++ fmt_d _).
  split.
  - rewrite length_firstn, !length_app.
    destruct v; cbn [verb_name lit list_ascii_of_string length]; lia.
  - destruct v; cbn [verb_name lit list_ascii_of_string app firstn];
      eexists; reflexivity.
Qed.

(** X10. A callback gives the binder one of four answers and no other:
    the verb's "Invalid ... value" failure, "media-session communication
    failed", "media-session replied -1", or a success whose object has
    the verb's name as its one member, with a value that is not
    negative.  Every failure has the status "failed". *)
Theorem answers_of_a_callback (v : verb) (w : World) (request : afb_req)
    (a : afb_reply) (tr : list event) :
  handler v w request = Some (a, tr) ->
  a = afb_req_fail "failed" (msg_invalid v) \/
  a = afb_req_fail "failed" "media-session communication failed" \/
  a = afb_req_fail "failed" "media-session replied -1" \/
  exists x, 0 <= x < 2 ^ 31 /\ a = afb_req_success [(verb_name v, x)].
Proof.
  rewrite handler_callback. unfold callback.
  destruct (match req_value request with
            | Some _ => _
            | None => false
            end); [intros [= <- <-]; auto|].
  intros H. right. now apply (exchange_answers _ _ _ _ _ H).
Qed.

(** X11. A callback touches the system exactly when the request passes
    the range check: its trace is empty if and only if a value was
    supplied that [atoi] puts outside the range of the verb, and that is
    also the only case in which it answers "Invalid ... value".  A
    request without a value is never rejected. *)
Theorem system_untouched_iff_rejected (v : verb) (w : World)
    (request : afb_req) (a : afb_reply) (tr : list event) :
  handler v w request = Some (a, tr) ->
  (tr = [] <->
   exists s, req_value request = Some s /\ ~ 0 <= atoi s <= verb_max v) /\
  (tr = [] <-> a = afb_req_fail "failed" (msg_invalid v)).
Proof.
  rewrite handler_callback. intros H.
  destruct (req_value request) as [s|] eqn:Hv.
  - destruct (Z.le_gt_cases 0 (atoi s)) as [H0|H0];
      [destruct (Z.le_gt_cases (atoi s) (verb_max v)) as [H1|H1]|].
    + rewrite (callback_in_range v w request s Hv) in H by lia.
      pose proof (exchange_trace_nonempty _ _ _ _ _ H) as Hne.
      split; split; try contradiction.
      * intros (s' & [= <-] & Hout). lia.
      * intros ->. exfalso. now apply (exchange_not_rejected _ _ _ _ H).
    + rewrite (callback_out_of_range v w request s Hv) in H by lia.
      injection H as <- <-. split; split; auto.
      intros _. exists s. split; [reflexivity | lia].
    + rewrite (callback_out_of_range v w request s Hv) in H by lia.
      injection H as <- <-. split; split; auto.
      intros _. exists s. split; [reflexivity | lia].
  - rewrite (callback_query v w request Hv) in H.
    pose proof (exchange_trace_nonempty _ _ _ _ _ H) as Hne.
    split; split; try contradiction.
    + intros (s' & [=] & _).
    + intros ->. exfalso. now apply (exchange_not_rejected _ _ _ _ H).
Qed.

(** ** The reply array *)

(** Two reply buffers of one size see the same read loop: the same
    count and calls, and after a positive count the same bytes in
    front. *)
Lemma read_loop_buffers (fd : Z) (reply reply' : list ascii)
    (script : list read_result) :
  length reply = length reply' ->
  match read_loop fd reply script, read_loop fd reply' script with
  | Some (r, b, evs), Some (r', b', evs') =>
      r = r' /\ evs = evs' /\
      (r <> 0 ->
       exists data,
         b = received reply data ++
             skipn (length (received reply data)) reply /\
         b' = received reply data ++
              skipn (length (received reply data)) reply' /\
         r = Z.of_nat (length (received reply data)))
  | None, None => True
  | _, _ => False
  end.
Proof.
  intros Hl. induction script as [|res rest IH]; simpl; [exact I|].
  destruct res as [e|data]; simpl.
  - destruct (transient e).
    + destruct (read_loop fd reply rest) as [[[r b] evs]|],
        (read_loop fd reply' rest) as [[[r' b'] evs']|]; try exact IH.
      destruct IH as (-> & -> & IH). rewrite Hl. auto.
    + rewrite Hl. repeat split. congruence.
  - rewrite <- Hl.
    destruct (Z.ltb_spec
                (Z.of_nat (length (firstn (length reply) data))) 0); [lia|].
    repeat split. intros _. exists data. unfold received. auto.
Qed.

(** What the callbacks see of an exchange does not depend on what the
    reply buffer held before. *)
Lemma session_comm_buffers (w : World) (command : cstring)
    (reply reply' : list ascii) :
  length reply = length reply' ->
  match session_comm w command reply, session_comm w command reply' with
  | Some o, Some o' =>
      ret o = ret o' /\ trace o = trace o' /\
      (ret o = 0 -> atoi (reply_mem o) = atoi (reply_mem o'))
  | None, None => True
  | _, _ => False
  end.
Proof.
  intros Hl.
  destruct (world_cases w) as [H|(d & Hd & [H|(Hs & [H|(Hp & [H|H])])])].
  - rewrite !path_no_runtime_dir by assumption. cbn. intuition discriminate.
  - rewrite !(path_socket_failed w d) by assumption.
    cbn. intuition discriminate.
  - rewrite !(path_too_long w d) by assumption. cbn. intuition discriminate.
  - rewrite !(path_connect_failed w d) by assumption.
    cbn. intuition discriminate.
  - assert (Hc : connects w d) by (repeat split; assumption).
    rewrite !(path_connected _ _ _ _ Hc). cbv zeta.
    destruct (write_loop _ command _) as [[r wevs]|]; [|exact I].
    destruct (r =? 0); [cbn; intuition discriminate|].
    pose proof (read_loop_buffers (socket_ret w) reply reply'
                  (read_script w) Hl) as Hb.
    destruct (read_loop _ reply _) as [[[r1 b1] evs1]|],
      (read_loop _ reply' _) as [[[r2 b2] evs2]|];
      try contradiction; try exact I.
    destruct Hb as (<- & <- & Hb).
    destruct (Z.eqb_spec r1 0) as [E|E]; [cbn; intuition discriminate|].
    destruct (Hb E) as (data & -> & -> & ->). cbn [ret trace reply_mem].
    rewrite Nat2Z.id.
    assert (Hrec : received reply' data = received reply data)
      by (unfold received; now rewrite Hl).
    split; [reflexivity|]. split.
    + unfold store_events. rewrite !length_app, !length_skipn, Hl.
      reflexivity.
    + intros _. rewrite atoi_reply. rewrite <- Hrec at 2 3 4.
      now rewrite atoi_reply, Hrec.
Qed.

Lemma session_comm_ret (w : World) (command : cstring) (reply : list ascii)
    (o : outcome) :
  session_comm w command reply = Some o -> ret o = 0 \/ ret o = -1.
Proof. intros H%session_comm_exit. destruct H; auto. Qed.

(** X12. The answer of a callback and the calls it makes do not depend on
    what the uninitialised [reply] array held: in two worlds that differ
    in the contents of uninitialised memory only, every callback behaves
    the same. *)
Theorem uninitialised_reply_is_never_seen (v : verb) (w : World)
    (s : nat -> ascii) (request : afb_req) :
  handler v (with_stack w s) request = handler v w request.
Proof.
  rewrite !handler_callback. unfold callback.
  destruct (match req_value request with
            | Some _ => _
            | None => false
            end); [reflexivity|].
  set (command := format_command _ _ _). unfold exchange.
  change (session_comm (with_stack w s) command)
    with (session_comm w command).
  assert (Hl : length (reply_array (with_stack w s)) = length (reply_array w))
    by now rewrite !length_reply_array.
  pose proof (session_comm_buffers w command _ _ Hl) as Hb.
  destruct (session_comm w command (reply_array (with_stack w s)))
    as [o|] eqn:Ho, (session_comm w command (reply_array w)) as [o'|];
    try contradiction; [|reflexivity].
  destruct Hb as (Hr & Ht & Ha). rewrite Hr, Ht.
  destruct (Z.ltb_spec (ret o') 0); [reflexivity|].
  destruct (session_comm_ret _ _ _ _ Ho) as [E|E]; [|lia].
  now rewrite (Ha E).
Qed.

(** ** Decimal replies *)

Lemma fmt_d_nonempty (x : Z) : fmt_d x <> [].
Proof.
  unfold fmt_d. destruct (Z.to_int x) as [d|d]; cbn [NilZero.string_of_int].
  - destruct (string_of_uint_head d) as (c & t & -> & _). discriminate.
  - discriminate.
Qed.

(** The decimal text of a value in the range of any verb is short. *)
Lemma fmt_d_small (x : Z) : 0 <= x <= 100 -> (length (fmt_d x) <= 3)%nat.
Proof.
  intros H.
  assert (Hall : forallb (fun n => (length (fmt_d (Z.of_nat n)) <=? 3)%nat)
                   (seq 0 101) = true) by (vm_compute; reflexivity).
  rewrite forallb_forall in Hall.
  specialize (Hall (Z.to_nat x)). rewrite Z2Nat.id in Hall by lia.
  apply Nat.leb_le, Hall, in_seq. lia.
Qed.

(** X13. The reply is not checked against the range of the verb.  When
    the daemon answers with the decimal text of an integer [x] that fits
    the reply array with its terminator, the callback answers with a
    success carrying [x] whenever [x] is not negative, also above the
    verb's maximum, and with "media-session replied -1" whenever [x] is
    negative, whatever its value. *)
Theorem decimal_reply_is_returned_unchecked (v : verb) (w : World)
    (request : afb_req) (runtime_dir command : cstring) (r : Z)
    (wevs : list event) (es : list Z) (x : Z) (rest : list read_result) :
  accepted v request command ->
  connects w runtime_dir ->
  wrote w command r wevs ->
  reads w es (fmt_d x) rest ->
  - 2 ^ 31 <= x < 2 ^ 31 ->
  (length (fmt_d x) < sizeof_reply)%nat ->
  exists tr,
    handler v w request =
      Some (if x <? 0 then afb_req_fail "failed" "media-session replied -1"
            else afb_req_success [(verb_name v, x)], tr).
Proof.
  intros Ha Hc Hw Hr Hx Hlen.
  destruct (exchange_delivers v _ _ _ _ _ _ _ _ Hc Hw Hr (fmt_d_nonempty x))
    as (tr & Hex).
  exists tr. rewrite handler_callback, (callback_accepted _ w _ _ Ha), Hex.
  rewrite firstn_all2 by lia. rewrite atoi_fmt_d by exact Hx. reflexivity.
Qed.

(** X14. Set, then hear the same.  When a value in the range of the verb
    is supplied and the daemon answers with the decimal text of that
    value, the callback answers with a success carrying the value. *)
Theorem echoed_value_comes_back (v : verb) (w : World) (request : afb_req)
    (s runtime_dir : cstring) (r : Z) (wevs : list event) (es : list Z)
    (rest : list read_result) :
  req_value request = Some s ->
  0 <= atoi s <= verb_max v ->
  connects w runtime_dir ->
  wrote w (format_command v (req_role request) (atoi s)) r wevs ->
  reads w es (fmt_d (atoi s)) rest ->
  exists tr,
    handler v w request =
      Some (afb_req_success [(verb_name v, atoi s)], tr).
Proof.
  intros Hv Hrange Hc Hw Hr.
  assert (H100 : 0 <= atoi s <= 100) by (destruct v; cbn in Hrange; lia).
  destruct (exchange_delivers v _ _ _ _ _ _ _ _ Hc Hw Hr
              (fmt_d_nonempty (atoi s))) as (tr & Hex).
  exists tr.
  rewrite handler_callback, (callback_in_range v w request s Hv Hrange), Hex.
  pose proof (fmt_d_small _ H100) as Hlen.
  rewrite firstn_all2 by (unfold sizeof_reply; lia).
  rewrite atoi_fmt_d by (unfold INT_MIN; lia).
  unfold answer. destruct (Z.ltb_spec (atoi s) 0); [lia | reflexivity].
Qed.

(** ** The table of verbs *)

(** X15. The table [verbs] registers three distinct names, and the
    callback registered under a name uses that name on the wire and in
    its answer: every command it writes begins with the name and a
    space, and every success it answers is an object whose one member
    has the name. *)
Theorem registered_name_is_wire_verb_and_key :
  NoDup (map verb_of verbs) /\
  forall e, In e verbs ->
  forall w request a tr,
    callback_of e w request = Some (a, tr) ->
    (forall buf, In buf (offered tr) ->
       exists rest, buf = lit (verb_of e) ++ lit " " ++ rest) /\
    (forall obj, a = afb_req_success obj ->
       exists x, 0 <= x /\ obj = [(verb_of e, x)]).
Proof.
  split.
  - cbn. repeat constructor; cbn; intuition discriminate.
  - intros e He w request a tr H.
    assert (Hv : exists v, verb_of e = verb_name v /\
                           callback_of e = handler v).
    { cbn in He. destruct He as [<-|[<-|[<-|[]]]];
        [exists Volume | exists Mute | exists Zone]; split; reflexivity. }
    destruct Hv as (v & -> & Hcb). rewrite Hcb, handler_callback in H.
    unfold callback in H.
    destruct (match req_value request with
              | Some _ => _
              | None => false
              end).
    { injection H as <- <-. split; [intros buf [] | discriminate]. }
    split.
    + intros buf Hin. pose proof (exchange_offered _ _ _ _ _ H) as Hall.
      rewrite Forall_forall in Hall. rewrite <- (Hall _ Hin).
      rewrite format_command_text. unfold command_text.
      destruct v; cbn [verb_name lit list_ascii_of_string app firstn];
        eexists; reflexivity.
    + intros obj ->.
      destruct (exchange_answers _ _ _ _ _ H) as [E|[E|(x & Hx & E)]];
        try discriminate.
      injection E as ->. exists x. split; [lia | reflexivity].
Qed.

(** ** The further properties at concrete worlds *)

Lemma nothing_done_without_a_descriptor_witness :
  let command := lit "volume default 42" in
  (xdg_runtime_dir unset_runtime_dir = None \/
   socket_ret unset_runtime_dir < 0) /\
  exists o,
    session_comm unset_runtime_dir command (reply_array unset_runtime_dir) =
      Some o /\
    ret o = -1 /\ closed (trace o) = [] /\ sockets_in (trace o) = [].
Proof.
  intros command.
  assert (H : xdg_runtime_dir unset_runtime_dir = None \/
              socket_ret unset_runtime_dir < 0) by (left; reflexivity).
  split; [exact H|].
  destruct (nothing_done_without_a_descriptor unset_runtime_dir command
              (reply_array unset_runtime_dir) H)
    as (o & Ho & Hr & _ & _ & _ & _ & Hc & Hs).
  exists o. repeat split; try assumption. apply Hs. reflexivity.
Defined.

Lemma return_value_witness :
  let w := cooperative "/run/user/1000" "42" in
  let command := lit "volume default 42" in
  exists o,
    session_comm w command (reply_array w) = Some o /\
    ret o = 0 /\
    exists r, In r (read_counts (trace o)) /\ 0 < r.
Proof.
  intros w command. eexists. split; [vm_compute; reflexivity|].
  split; [reflexivity|].
  exact (proj1 (proj2 (return_value_tells_whether_bytes_were_read
                         w command (reply_array w) _ eq_refl)) eq_refl).
Defined.

Lemma failure_leaves_reply_untouched_witness :
  let w := cooperative "/run/user/1000" "" in
  let command := lit "volume default 42" in
  exists o,
    session_comm w command (reply_array w) = Some o /\
    ret o = -1 /\
    reply_mem o = reply_array w.
Proof.
  intros w command. eexists. split; [vm_compute; reflexivity|].
  split; [reflexivity|].
  exact (proj2 (failure_leaves_reply_untouched
                  w command (reply_array w) _ eq_refl) eq_refl).
Defined.

Lemma reads_only_after_bytes_were_sent_witness :
  let w := cooperative "/run/user/1000" "42" in
  let command := lit "volume default 42" in
  exists o,
    session_comm w command (reply_array w) = Some o /\
    read_counts (trace o) <> [] /\
    sent (trace o) <> [].
Proof.
  intros w command. eexists. split; [vm_compute; reflexivity|].
  assert (H : read_counts
                [EvSocket 3;
                 EvConnect 3 (lit "/run/user/1000/pipewire-media-session") 0;
                 EvWrite 3 command 17; EvRead 3 10 2; EvClose 3] <> [])
    by discriminate.
  split; [exact H|].
  exact (proj1 (reads_only_after_bytes_were_sent
                  w command (reply_array w) _ eq_refl H)).
Defined.

Lemma one_descriptor_per_call_witness :
  let w := cooperative "/run/user/1000" "42" in
  let command := lit "volume default 42" in
  exists o,
    session_comm w command (reply_array w) = Some o /\
    Forall (call_on 3 command 10) (trace o) /\
    (length (closed (trace o)) <= 1)%nat.
Proof.
  intros w command. eexists. split; [vm_compute; reflexivity|].
  destruct (one_descriptor_per_call w command (reply_array w) _ eq_refl)
    as (H1 & _ & _ & H4).
  split; [exact H1 | exact H4].
Defined.

Lemma read_error_reported_as_eof_witness :
  let w := {| xdg_runtime_dir := Some (lit "/run/user/1000");
              socket_ret := 3;
              connect_ret := 0;
              write_script := [WriteOk 4096];
              read_script := [ReadErr EINTR; ReadErr 104];
              stack := fun _ => "?"%char |} in
  let command := lit "volume default 42" in
  (connects w (lit "/run/user/1000") /\
   wrote w command 17 [EvWrite 3 command 17] /\
   read_script w = map ReadErr [EINTR] ++ ReadErr 104 :: [] /\
   all_transient [EINTR] /\
   transient 104 = false) /\
  exists o,
    session_comm w command (reply_array w) = Some o /\
    ret o = -1 /\
    printed (trace o) = [lit "EOF"].
Proof.
  intros w command.
  assert (Hc : connects w (lit "/run/user/1000")) by evaluate.
  assert (Hw : wrote w command 17 [EvWrite 3 command 17]) by evaluate.
  assert (Ht : all_transient [EINTR]) by (repeat constructor).
  split; [exact (conj Hc (conj Hw (conj eq_refl (conj Ht eq_refl))))|].
  destruct (read_error_reported_as_eof w _ command (reply_array w) 17 _
              [EINTR] 104 [] Hc Hw eq_refl Ht eq_refl)
    as (o & before & Ho & Hr & _ & Htr & Hp & _).
  exists o. split; [exact Ho|]. split; [exact Hr|].
  rewrite Htr, printed_app, Hp. reflexivity.
Defined.

Lemma empty_exchange_never_succeeds_witness :
  let w := cooperative "/run/user/1000" "42" in
  ([] = @nil ascii \/ reply_array w = []) /\
  exists o, session_comm w [] (reply_array w) = Some o /\ ret o = -1.
Proof.
  intros w.
  assert (H : [] = @nil ascii \/ reply_array w = []) by (left; reflexivity).
  split; [exact H|].
  eexists. split; [vm_compute; reflexivity|].
  exact (empty_exchange_never_succeeds w [] (reply_array w) _ H eq_refl).
Defined.

Lemma only_transient_errors_witness :
  let w := {| xdg_runtime_dir := Some (lit "/run/user/1000");
              socket_ret := 3;
              connect_ret := 0;
              write_script := [WriteErr EAGAIN; WriteErr EINTR];
              read_script := [];
              stack := fun _ => "?"%char |} in
  let command := lit "volume default 42" in
  (connects w (lit "/run/user/1000") /\
   only_transient_writes (write_script w)) /\
  session_comm w command (reply_array w) = None.
Proof.
  intros w command.
  assert (Hc : connects w (lit "/run/user/1000")) by evaluate.
  assert (Ht : only_transient_writes (write_script w))
    by (repeat constructor).
  split; [exact (conj Hc Ht)|].
  apply (proj2 (only_transient_errors_keep_the_call_going
                  w command (reply_array w))).
  exists (lit "/run/user/1000"). split; [exact Hc | left; exact Ht].
Defined.

Lemma command_fits_witness :
  let w := cooperative "/run/user/1000" "42" in
  let request := {| req_role := Some long_role; req_value := None |} in
  exists a tr buf,
    volume w request = Some (a, tr) /\
    In buf (offered tr) /\
    length buf = 99%nat /\
    exists rest, buf = lit "volume" ++ lit " " ++ rest.
Proof.
  intros w request. eexists. eexists. eexists.
  split; [vm_compute; reflexivity|].
  assert (Hin : In (lit "volume " ++ repeat "a"%char 92)
                  (offered
                     [EvSocket 3;
                      EvConnect 3
                        (lit "/run/user/1000/pipewire-media-session") 0;
                      EvWrite 3 (lit "volume " ++ repeat "a"%char 92) 99;
                      EvRead 3 10 2; EvClose 3]))
    by (left; reflexivity).
  split; [exact Hin|]. split; [reflexivity|].
  exact (proj2 (command_fits_and_keeps_the_verb Volume w request _ _ _
                  eq_refl Hin)).
Defined.

Lemma answers_of_a_callback_witness :
  let w := cooperative "/run/user/1000" "42" in
  let request := {| req_role := Some (lit "default"); req_value := None |} in
  exists a tr,
    volume w request = Some (a, tr) /\
    (a = afb_req_fail "failed" (msg_invalid Volume) \/
     a = afb_req_fail "failed" "media-session communication failed" \/
     a = afb_req_fail "failed" "media-session replied -1" \/
     exists x, 0 <= x < 2 ^ 31 /\
               a = afb_req_success [(verb_name Volume, x)]).
Proof.
  intros w request. eexists. eexists. split; [vm_compute; reflexivity|].
  exact (answers_of_a_callback Volume w request _ _ eq_refl).
Defined.

Lemma system_untouched_witness :
  let w := cooperative "/run/user/1000" "42" in
  let request := {| req_role := Some (lit "default");
                    req_value := Some (lit "-1") |} in
  exists a tr,
    mute w request = Some (a, tr) /\
    tr = [] /\
    a = afb_req_fail "failed" (msg_invalid Mute).
Proof.
  intros w request. eexists. eexists. split; [vm_compute; reflexivity|].
  split; [reflexivity|].
  exact (proj1 (proj2 (system_untouched_iff_rejected Mute w request _ _
                         eq_refl)) eq_refl).
Defined.

Lemma uninitialised_reply_witness :
  let w := cooperative "/run/user/1000" "7" in
  let request := {| req_role := Some (lit "default"); req_value := None |} in
  zone (with_stack w (fun _ => "9"%char)) request = zone w request.
Proof.
  intros w request.
  exact (uninitialised_reply_is_never_seen Zone w (fun _ => "9"%char)
           request).
Defined.

Lemma decimal_reply_witness :
  let w := cooperative "/run/user/1000" "101" in
  let request := {| req_role := Some (lit "default"); req_value := None |} in
  let command := lit "volume default -1" in
  (accepted Volume request command /\
   connects w (lit "/run/user/1000") /\
   wrote w command 17 [EvWrite 3 command 17] /\
   reads w [] (fmt_d 101) [] /\
   - 2 ^ 31 <= 101 < 2 ^ 31 /\
   (length (fmt_d 101) < sizeof_reply)%nat) /\
  exists tr,
    volume w request = Some (afb_req_success [("volume"%string, 101)], tr).
Proof.
  intros w request command.
  assert (Ha : accepted Volume request command) by reflexivity.
  assert (Hc : connects w (lit "/run/user/1000")) by evaluate.
  assert (Hw : wrote w command 17 [EvWrite 3 command 17]) by evaluate.
  assert (Hr : reads w [] (fmt_d 101) []) by evaluate.
  assert (Hx : - 2 ^ 31 <= 101 < 2 ^ 31) by lia.
  assert (Hl : (length (fmt_d 101) < sizeof_reply)%nat)
    by (vm_compute; lia).
  split; [exact (conj Ha (conj Hc (conj Hw (conj Hr (conj Hx Hl)))))|].
  exact (decimal_reply_is_returned_unchecked Volume w request _ command 17
           _ [] 101 [] Ha Hc Hw Hr Hx Hl).
Defined.

Lemma echoed_value_witness :
  let w := cooperative "/run/user/1000" "42" in
  let request := {| req_role := Some (lit "default");
                    req_value := Some (lit "42") |} in
  let command := lit "volume default 42" in
  (req_value request = Some (lit "42") /\
   0 <= atoi (lit "42") <= verb_max Volume /\
   connects w (lit "/run/user/1000") /\
   wrote w command 17 [EvWrite 3 command 17] /\
   reads w [] (fmt_d (atoi (lit "42"))) []) /\
  exists tr,
    volume w request = Some (afb_req_success [("volume"%string, 42)], tr).
Proof.
  intros w request command.
  assert (E : atoi (lit "42") = 42) by reflexivity.
  assert (Hrange : 0 <= atoi (lit "42") <= verb_max Volume)
    by (rewrite E; cbn; lia).
  assert (Hc : connects w (lit "/run/user/1000")) by evaluate.
  assert (Hw : wrote w command 17 [EvWrite 3 command 17]) by evaluate.
  assert (Hr : reads w [] (fmt_d (atoi (lit "42"))) []) by evaluate.
  split; [exact (conj eq_refl (conj Hrange (conj Hc (conj Hw Hr))))|].
  exact (echoed_value_comes_back Volume w request (lit "42") _ 17 _ [] []
           eq_refl Hrange Hc Hw Hr).
Defined.

(** ** Diagnostics and the terminator *)

Lemma write_loop_quiet (fd : Z) (command : cstring)
    (script : list write_result) (r : Z) (evs : list event) :
  write_loop fd command script = Some (r, evs) ->
  r <> 0 -> diagnostics evs = [].
Proof.
  revert r evs.
  induction script as [|res rest IH]; intros r evs; simpl; [discriminate|].
  destruct res as [e|room]; simpl.
  - destruct (transient e).
    + destruct (write_loop fd command rest) as [[r' evs']|]; [|discriminate].
      intros [= <- <-] Hr. cbn. now apply (IH r').
    + intros [= <- <-] Hr. contradiction.
  - destruct (_ <? 0); intros [= <- <-] Hr; [contradiction | reflexivity].
Qed.

Lemma read_loop_quiet (fd : Z) (reply : list ascii)
    (script : list read_result) (r : Z) (buf : list ascii)
    (evs : list event) :
  read_loop fd reply script = Some (r, buf, evs) ->
  r <> 0 -> diagnostics evs = [].
Proof.
  revert r buf evs.
  induction script as [|res rest IH]; intros r buf evs; simpl;
    [discriminate|].
  destruct res as [e|data]; simpl.
  - destruct (transient e).
    + destruct (read_loop fd reply rest) as [[[r' buf'] evs']|];
        [|discriminate].
      intros [= <- <- <-] Hr. cbn. now apply (IH r' buf').
    + intros [= <- <- <-] Hr. contradiction.
  - destruct (_ <? 0); intros [= <- <- <-] Hr; [contradiction | reflexivity].
Qed.

(** X16. Every failure is said on [stderr] and no success is: a call
    returns 0 exactly when it has printed nothing, through [perror] or
    [fprintf]; the retries after EAGAIN and EINTR print nothing. *)
Theorem diagnostics_iff_failure (w : World) (command : cstring)
    (reply : list ascii) (o : outcome) :
  session_comm w command reply = Some o ->
  (ret o = 0 <-> diagnostics (trace o) = []).
Proof.
  intros H%session_comm_exit.
  destruct H as [H|d H1 H2|d H1 H2 H3|d H1 H2 H3 H4|d wevs Hc Hw
                 |d r wevs reply' revs Hc (Hw & Hr0) Hr
                 |d r wevs r' reply' revs Hc (Hw & Hr0) Hr Hr'0];
    cbn [ret trace].
  1-4: split; discriminate.
  - split; [discriminate|]. rewrite !diagnostics_app. cbn.
    intros E. apply app_eq_nil in E. destruct E as [_ E]. discriminate.
  - split; [discriminate|]. rewrite !diagnostics_app. cbn.
    intros E. apply app_eq_nil in E. destruct E as [_ E].
    apply app_eq_nil in E. destruct E as [_ E]. discriminate.
  - split; [intros _ | reflexivity].
    rewrite !diagnostics_app, (write_loop_quiet _ _ _ _ _ Hw Hr0),
      (read_loop_quiet _ _ _ _ _ _ Hr Hr'0).
    unfold store_events. destruct (_ <? _)%nat; reflexivity.
Qed.

(** X17. A reply shorter than the buffer is stored in place and
    terminated inside the buffer: after a call that read the bytes
    [data], fewer than [reply_size], the buffer holds [data], then the
    terminator, then its former bytes, and no store fell outside. *)
Theorem short_reply_is_terminated_in_place (w : World)
    (runtime_dir command : cstring) (reply : list ascii) (r : Z)
    (wevs : list event) (es : list Z) (data : list ascii)
    (rest : list read_result) :
  connects w runtime_dir ->
  wrote w command r wevs ->
  reads w es data rest ->
  data <> [] ->
  (length data < length reply)%nat ->
  exists o,
    session_comm w command reply = Some o /\
    ret o = 0 /\
    reply_mem o = data ++ NUL :: skipn (S (length data)) reply /\
    nth_error (reply_mem o) (length data) = Some NUL /\
    forall size i, ~ In (EvStoreOutside size i) (trace o).
Proof.
  intros Hc Hw Hr Hd Hlen.
  destruct (store_terminates reply data Hlen) as (Hg & Hst & Hev).
  assert (Hne : received reply data <> []) by now rewrite Hg.
  rewrite (path_success _ _ _ _ Hc _ _ _ _ _ Hw Hr Hne). cbv zeta.
  rewrite Hst, Hev. eexists. split; [reflexivity|].
  cbn [ret reply_mem trace]. repeat split.
  - rewrite nth_error_app2, Nat.sub_diag by lia. reflexivity.
  - intros size i. rewrite !in_app_iff.
    intros [Hin|[Hin|[Hin|Hin]]].
    + cbn in Hin. intuition discriminate.
    + clear - Hin Hw.
      destruct Hw as (Hw & _). revert r wevs Hw Hin.
      induction (write_script w) as [|res script IH]; intros r wevs; simpl;
        [discriminate|].
      destruct res as [e|room]; simpl.
      * destruct (transient e).
        -- destruct (write_loop _ command script) as [[r' evs']|];
             [|discriminate].
           intros [= <- <-] [Hin|Hin]; [discriminate|]. now apply (IH r' evs').
        -- intros [= <- <-] Hin. cbn in Hin. intuition discriminate.
      * destruct (_ <? 0); intros [= <- <-] Hin; cbn in Hin;
          intuition discriminate.
    + destruct Hin as [Hin|Hin].
      * unfold retried_reads in Hin. apply in_map_iff in Hin.
        destruct Hin as (? & ? & _). discriminate.
      * cbn in Hin. intuition discriminate.
    + cbn in Hin. intuition discriminate.
Qed.

Lemma diagnostics_iff_failure_witness :
  let w := cooperative "/run/user/1000" "" in
  let command := lit "volume default 42" in
  exists o,
    session_comm w command (reply_array w) = Some o /\
    diagnostics (trace o) = [EvStderr (lit "EOF")] /\
    ret o <> 0.
Proof.
  intros w command. eexists. split; [vm_compute; reflexivity|].
  split; [reflexivity|].
  intros E.
  pose proof (proj1 (diagnostics_iff_failure w command (reply_array w) _
                       eq_refl) E) as H.
  discriminate H.
Defined.

Lemma short_reply_witness :
  let w := cooperative "/run/user/1000" "42" in
  let command := lit "volume default 42" in
  (connects w (lit "/run/user/1000") /\
   wrote w command 17 [EvWrite 3 command 17] /\
   reads w [] (lit "42") [] /\
   lit "42" <> [] /\
   (length (lit "42") < length (reply_array w))%nat) /\
  exists o,
    session_comm w command (reply_array w) = Some o /\
    ret o = 0 /\
    reply_mem o = lit "42" ++ NUL :: lit "???????".
Proof.
  intros w command.
  assert (Hc : connects w (lit "/run/user/1000")) by evaluate.
  assert (Hw : wrote w command 17 [EvWrite 3 command 17]) by evaluate.
  assert (Hr : reads w [] (lit "42") []) by evaluate.
  assert (Hd : lit "42" <> []) by discriminate.
  assert (Hl : (length (lit "42") < length (reply_array w))%nat)
    by (vm_compute; lia).
  split; [exact (conj Hc (conj Hw (conj Hr (conj Hd Hl))))|].
  destruct (short_reply_is_terminated_in_place w _ command (reply_array w)
              17 _ [] (lit "42") [] Hc Hw Hr Hd Hl)
    as (o & Ho & Hret & Hmem & _).
  exists o. split; [exact Ho|]. split; [exact Hret | exact Hmem].
Defined.
